(** * skew_lattice: the numerical engine of the lattice skew-correction module

    A shallow embedding of the numerical functions of [skew_lattice.c]
    (the matrix helpers, [skew_process], [affine], [peak_find] and
    [get_angles]) and the properties proved about them.

    Conventions of the embedding.
    - A [gdouble] is a real number ([R]): arithmetic is exact, so the results
      below are statements about the formulas the code evaluates, not about
      binary64 rounding.  The macro [PI] (3.14159265358979323846) and the libm
      functions [tan], [sqrt], [acos] and [floor] are the real constant and
      functions of the same names.
    - A [gint] is an integer ([Z]); C's [%] on [gint] is [Z.rem] and [/] is
      [Z.quot].  The conversion of a [gdouble] to [gint] in [GWY_ROUND] is
      defined in C only for values inside the range of [gint]:
      [GWY_ROUND_gint], [skew_canvas_gint] and [skew_process_gint] give
      [None] where it is not.
    - The number that [g_strtod] reads from a text entry may be infinite or
      not a number: it is a [gdouble_ext].
    - An array [gdouble m[6]] holding an affine map is the record [matrix]
      whose field [ek] is [m[k]]; a sample array is a [list R].
    - Functions of the Gwyddion libraries, which the module only calls, are
      either modelled from their documented behaviour (data-field accessors)
      or taken as parameters (the interpolation kernels). *)

From Stdlib Require Import String.
From Stdlib Require Import Reals Lra Lia ZArith List Bool Psatz.
Import ListNotations.
Local Open Scope R_scope.

(** ** Comparisons of [gdouble]s as booleans *)

Definition Rltb (x y : R) : bool := if Rlt_dec x y then true else false.
Definition Rgtb (x y : R) : bool := Rltb y x.

(** ** Loops *)

(** The integers [lo, lo+1, ..., hi-1], in increasing order. *)
Definition Zrange (lo hi : Z) : list Z :=
  map (fun k => (lo + Z.of_nat k)%Z) (seq 0 (Z.to_nat (hi - lo))).

(** [for (k = lo; k < hi; k++) s = body k s;] *)
Definition for_loop {St : Type} (lo hi : Z) (body : Z -> St -> St) (s : St) : St :=
  fold_left (fun acc k => body k acc) (Zrange lo hi) s.

(** ** Matrix helpers *)

(** [gdouble m[6]]: the linear part is [[e0 e2] [e1 e3]], the translation
    is [(e4, e5)]. *)
Record matrix : Type := Matrix
  { e0 : R; e1 : R; e2 : R; e3 : R; e4 : R; e5 : R }.

(** [gdouble p[3]], a homogeneous point. *)
Record vec3 : Type := Vec3 { p0 : R; p1 : R; p2 : R }.

(** [matrix_det] (lines 1388-1392). *)
Definition matrix_det (m : matrix) : R :=
  e0 m * e3 m - e1 m * e2 m.

(** [invert_matrix] (lines 1394-1404): the array [dest] it fills. *)
Definition invert_matrix (src : matrix) : matrix :=
  let D := matrix_det src in
  {| e0 := e3 src / D;
     e1 := - e1 src / D;
     e2 := - e2 src / D;
     e3 := e0 src / D;
     e4 := (e2 src * e5 src - e3 src * e4 src) / D;
     e5 := (e1 src * e4 src - e0 src * e5 src) / D |}.

(** [mult_3matrix] (lines 1406-1412): the array [dest] it fills. *)
Definition mult_3matrix (mat1 : matrix) (mat2 : vec3) : vec3 :=
  {| p0 := e0 mat1 * p0 mat2 + e2 mat1 * p1 mat2 + e4 mat1 * p2 mat2;
     p1 := e1 mat1 * p0 mat2 + e3 mat1 * p1 mat2 + e5 mat1 * p2 mat2;
     p2 := p2 mat2 |}.

(** [deg2rad] (lines 1414-1418). *)
Definition deg2rad (deg : R) : R := deg * PI / 180.

(** ** Arrays *)

(** [a[k]] and [a[k] = v] on a sample array.  Reading or writing outside the
    array is undefined in C; here a read gives 0 and a write changes nothing. *)
Definition array_get (a : list R) (k : Z) : R :=
  if (k <? 0)%Z then 0 else nth (Z.to_nat k) a 0.

Fixpoint list_set (a : list R) (n : nat) (v : R) : list R :=
  match a, n with
  | [], _ => []
  | _ :: t, O => v :: t
  | x :: t, S n' => x :: list_set t n' v
  end.

Definition array_set (a : list R) (k : Z) (v : R) : list R :=
  if (k <? 0)%Z then a else list_set a (Z.to_nat k) v.

(** ** Data fields *)

(** A [GwyDataField]: resolution, physical size and offsets, and the samples
    in row-major order ([data[col + xres*row]]). *)
Record GwyDataField : Type := DataField
  { xres : Z; yres : Z;
    xreal : R; yreal : R;
    xoffset : R; yoffset : R;
    data : list R }.

(** [gwy_data_field_get_val(dfield, col, row)] of libprocess: the sample at
    column [col] of row [row]; the library checks the position and returns
    0.0 for one outside the field. *)
Definition gwy_data_field_get_val (f : GwyDataField) (col row : Z) : R :=
  if ((0 <=? col) && (col <? xres f) && (0 <=? row) && (row <? yres f))%Z
  then array_get (data f) (col + xres f * row)
  else 0.

(** The sample at a pixel given as a pair (column, row). *)
Definition sample (dfield : GwyDataField) (a : Z * Z) : R :=
  gwy_data_field_get_val dfield (fst a) (snd a).

(** [gwy_data_field_get_min_max] of libprocess: the smallest and the largest
    sample. *)
Definition gwy_data_field_get_min_max (f : GwyDataField) : R * R :=
  match data f with
  | [] => (0, 0)
  | v :: vs => fold_left (fun mm w => (Rmin (fst mm) w, Rmax (snd mm) w)) vs (v, v)
  end.

(** [gwy_data_field_new(xres, yres, xreal, yreal, FALSE)] followed by
    [gwy_data_field_fill(field, value)]. *)
Definition gwy_data_field_new_filled (xr yr : Z) (xre yre value : R)
  : GwyDataField :=
  {| xres := xr; yres := yr; xreal := xre; yreal := yre;
     xoffset := 0; yoffset := 0;
     data := repeat value (Z.to_nat (xr * yr)) |}.

(** The cast [(gint)x] of a [gdouble]: truncation towards zero. *)
Definition gint_of_gdouble (x : R) : Z :=
  if Rlt_dec x 0 then (- Int_part (- x))%Z else Int_part x.

(** [floor] followed by the cast to [gint]. *)
Definition floorZ (x : R) : Z := Int_part x.

(** Modelled from the spec: the macro [GWY_ROUND] of libgwyddion, which the
    source uses and does not define.  The spec's canvas resolution is
    "round(bbox width), round(bbox height)"; the macro rounds to the nearest
    integer with halves upwards, [(gint)floor(x + 0.5)].  [GWY_ROUND] is the
    integer [floor(x + 0.5)] itself; [GWY_ROUND_gint] below adds the cast. *)
Definition GWY_ROUND (x : R) : Z := floorZ (x + 0.5).




(** ** [skew_process]: shear matrix and canvas *)

(** The forward shear matrix: [Trans[0..3]] as lines 905-908 and 944-947
    fill it from [hAngle = deg2rad(Xskew)] and [vAngle = deg2rad(Yskew)], with
    the translation [Trans[4..5]] given. *)
Definition skew_Trans (Xskew Yskew tx ty : R) : matrix :=
  let hAngle := deg2rad Xskew in
  let vAngle := deg2rad Yskew in
  {| e0 := 1; e1 := tan vAngle; e2 := tan hAngle; e3 := 1;
     e4 := tx; e5 := ty |}.

(** The corners [(cornX[i], cornY[i], 1)] of the original rectangle
    (lines 895-902). *)
Definition skew_corners (oxres oyres : R) : list vec3 :=
  [ Vec3 0 0 1; Vec3 oxres 0 1; Vec3 oxres oyres 1; Vec3 0 oyres 1 ].

(** [if (v < low) low = v;] and [if (v > high) high = v;] *)
Definition lower (low v : R) : R := if Rlt_dec v low then v else low.
Definition higher (high v : R) : R := if Rlt_dec high v then v else high.

(** The bounding box of the sheared corners (lines 911-932). *)
Record bbox : Type := BBox { lowX : R; highX : R; lowY : R; highY : R }.

Definition skew_bbox (Xskew Yskew oxres oyres : R) : bbox :=
  let Trans := skew_Trans Xskew Yskew 0 0 in
  let Tcorn := map (mult_3matrix Trans) (skew_corners oxres oyres) in
  let first := nth 0 Tcorn (Vec3 0 0 1) in
  fold_left
    (fun b Tp =>
       {| lowX := lower (lowX b) (p0 Tp); highX := higher (highX b) (p0 Tp);
          lowY := lower (lowY b) (p1 Tp); highY := higher (highY b) (p1 Tp) |})
    (tl Tcorn)
    {| lowX := p0 first; highX := p0 first;
       lowY := p1 first; highY := p1 first |}.

(** What [skew_process] stores in [controls->args], the physical size of the
    new field and the two matrices, all computed before the resampler is
    called (lines 889-950). *)
Record skew_model : Type := SkewModel
  { background_fill : R;
    newxres : Z; newyres : Z;
    new_xreal : R; new_yreal : R;
    Trans : matrix; iTrans : matrix }.

Definition skew_canvas (image : GwyDataField) (Xskew Yskew : R) : skew_model :=
  let oxres := IZR (xres image) in
  let oyres := IZR (yres image) in
  let (min, max) := gwy_data_field_get_min_max image in
  let b := skew_bbox Xskew Yskew oxres oyres in
  let xres' := GWY_ROUND (highX b - lowX b) in
  let yres' := GWY_ROUND (highY b - lowY b) in
  let xscale := IZR xres' / oxres in
  let yscale := IZR yres' / oyres in
  let T := skew_Trans Xskew Yskew (- lowX b) (- lowY b) in
  {| background_fill := min - 0.05 * (max - min);
     newxres := xres'; newyres := yres';
     new_xreal := xreal image * xscale;
     new_yreal := yreal image * yscale;
     Trans := T; iTrans := invert_matrix T |}.


(** ** [affine]: the resampler (lines 1420-1496) *)

(** [bx] and [by] after
    [bx += 0.5*(axx + axy - 1.0); by += 0.5*(ayx + ayy - 1.0);]. *)
Definition affine_shift (invtrans : matrix) : R * R :=
  let axx := e0 invtrans in
  let axy := e1 invtrans in
  let ayx := e2 invtrans in
  let ayy := e3 invtrans in
  let bx := e4 invtrans in
  let by' := e5 invtrans in
  (bx + 0.5 * (axx + axy - 1), by' + 0.5 * (ayx + ayy - 1)).

(** The source coordinate [(x, y)] of the destination pixel [(newi, newj)]. *)
Definition affine_coord (invtrans : matrix) (newi newj : Z) : R * R :=
  let axx := e0 invtrans in
  let axy := e1 invtrans in
  let ayx := e2 invtrans in
  let ayy := e3 invtrans in
  let (bx, by') := affine_shift invtrans in
  (axx * IZR newi + ayx * IZR newj + bx,
   axy * IZR newi + ayy * IZR newj + by').

(** [y > yres || x > xres || y < 0.0 || x < 0.0] *)
Definition affine_outside (xr yr : Z) (x y : R) : bool :=
  Rgtb y (IZR yr) || Rgtb x (IZR xr) || Rltb y 0 || Rltb x 0.

(** [sf = -((suplen - 1)/2)] and [st = suplen/2]. *)
Definition support_from (suplen : Z) : Z := (- Z.quot (suplen - 1) 2)%Z.
Definition support_to (suplen : Z) : Z := Z.quot suplen 2.

(** [k = (old + off + 2*st*res) % (2*res); if (k >= res) k = 2*res-1 - k;] *)
Definition wrap_index (res st old off : Z) : Z :=
  let k := Z.rem (old + off + 2 * st * res) (2 * res) in
  if (k >=? res)%Z then (2 * res - 1 - k)%Z else k.

(** The neighbourhood gathered into [coeff] (a fresh [suplen*suplen] array). *)
Definition affine_gather (xr yr suplen : Z) (cdata : list R) (oldi oldj : Z)
  : list R :=
  let sf := support_from suplen in
  let st := support_to suplen in
  for_loop sf (st + 1)
    (fun i coeff =>
       let ii := wrap_index yr st oldi i in
       for_loop sf (st + 1)
         (fun j coeff =>
            let jj := wrap_index xr st oldj j in
            array_set coeff ((i - sf) * suplen + j - sf)
              (array_get cdata (ii * xr + jj)))
         coeff)
    (repeat 0 (Z.to_nat (suplen * suplen))).

(** The interpolation kernels of libprocess, which [affine] only calls: the
    kernel identifiers and the four functions used on them. *)
Class GwyInterpolation (GwyInterpolationType : Type) : Type :=
  { GWY_INTERPOLATION_BILINEAR : GwyInterpolationType;
    gwy_interpolation_get_support_size : GwyInterpolationType -> Z;
    gwy_interpolation_has_interpolating_basis : GwyInterpolationType -> bool;
    gwy_interpolation_resolve_coeffs_2d :
      Z -> Z -> Z -> list R -> GwyInterpolationType -> list R;
    gwy_interpolation_interpolate_2d :
      R -> R -> Z -> list R -> GwyInterpolationType -> R }.

(** One iteration of the inner loop: the flag [vset] and the value [v]
    stored in [data[newi + newxres*newj]]. *)
Definition affine_pixel {T : Type} `{GwyInterpolation T} (xr yr suplen : Z)
    (cdata : list R) (invtrans : matrix) (interp : T) (fill_value : R)
    (newi newj : Z) : bool * R :=
  let (x, y) := affine_coord invtrans newi newj in
  if affine_outside xr yr x y then (true, fill_value)
  else
    let oldi := floorZ y in
    let y' := y - IZR oldi in
    let oldj := floorZ x in
    let x' := x - IZR oldj in
    let coeff := affine_gather xr yr suplen cdata oldi oldj in
    (false, gwy_interpolation_interpolate_2d x' y' suplen coeff interp).

(** The coefficient field: the source itself for an interpolating basis,
    otherwise a copy with the coefficients resolved. *)
Definition affine_cdata {T : Type} `{GwyInterpolation T}
    (source : GwyDataField) (interp : T) : list R :=
  if gwy_interpolation_has_interpolating_basis interp then data source
  else gwy_interpolation_resolve_coeffs_2d
         (xres source) (yres source) (xres source) (data source) interp.

(** [affine(source, dest, invtrans, interp, fill_value)]: the destination
    field after the call. *)
Definition affine {T : Type} `{GwyInterpolation T}
    (source dest : GwyDataField) (invtrans : matrix) (interp : T)
    (fill_value : R) : GwyDataField :=
  let suplen := gwy_interpolation_get_support_size interp in
  if (suplen >? 0)%Z then
    let cdata := affine_cdata source interp in
    let newxres := xres dest in
    let newyres := yres dest in
    let data' :=
      for_loop 0 newxres
        (fun newi d =>
           for_loop 0 newyres
             (fun newj d =>
                array_set d (newi + newxres * newj)
                  (snd (affine_pixel (xres source) (yres source) suplen
                          cdata invtrans interp fill_value newi newj)))
             d)
        (data dest) in
    {| xres := xres dest; yres := yres dest;
       xreal := xreal dest; yreal := yreal dest;
       xoffset := xoffset dest; yoffset := yoffset dest;
       data := data' |}
  else dest.

(** [skew_process]: the stored parameters and the corrected image (the
    spectrum of the corrected image, computed next by the FFT of
    libprocess, is left out). *)
Definition skew_process {T : Type} `{GwyInterpolation T}
    (image : GwyDataField) (Xskew Yskew : R) : skew_model * GwyDataField :=
  let m := skew_canvas image Xskew Yskew in
  let corr_image :=
    gwy_data_field_new_filled (newxres m) (newyres m)
      (new_xreal m) (new_yreal m) (background_fill m) in
  (m, affine image corr_image (iTrans m) GWY_INTERPOLATION_BILINEAR
        (background_fill m)).


(** ** [peak_find] (lines 780-830) *)

(** The running maximum [(temp_i, temp_j, temp_z)] and, as a ghost field, the
    pixels read inside the loops so far (most recent first).  [temp_i] and
    [temp_j] are [gdouble]s in the source; they only ever hold pixel indices. *)
Record peak : Type := Peak
  { temp_i : Z; temp_j : Z; temp_z : R; examined : list (Z * Z) }.

(** The clamped bounds [(low_i, high_i, low_j, high_j)]. *)
Definition peak_low (c r : Z) : Z :=
  let low := (c - r)%Z in if (low <? 0)%Z then 0%Z else low.
Definition peak_high (c r res : Z) : Z :=
  let high := (c + r)%Z in if (high >? res)%Z then res else high.

(** The body of the inner loop. *)
Definition peak_step (dfield : GwyDataField) (i j : Z) (s : peak) : peak :=
  if Rgtb (gwy_data_field_get_val dfield i j) (temp_z s)
  then {| temp_i := i; temp_j := j;
          temp_z := gwy_data_field_get_val dfield i j;
          examined := (i, j) :: examined s |}
  else {| temp_i := temp_i s; temp_j := temp_j s; temp_z := temp_z s;
          examined := (i, j) :: examined s |}.

(** The search of [peak_find] from the approximate pixel [(col, row)]. *)
Definition peak_scan (dfield : GwyDataField) (col row r : Z) : peak :=
  let low_i := peak_low col r in
  let high_i := peak_high col r (xres dfield) in
  let low_j := peak_low row r in
  let high_j := peak_high row r (yres dfield) in
  for_loop low_i high_i
    (fun i s => for_loop low_j high_j (fun j s => peak_step dfield i j s) s)
    {| temp_i := col; temp_j := row;
       temp_z := gwy_data_field_get_val dfield col row;
       examined := [] |}.

Section PeakFind.

(** Conversions between physical and pixel coordinates (libprocess). *)
Variables gwy_data_field_rtoj gwy_data_field_rtoi : GwyDataField -> R -> R.
Variables gwy_data_field_jtor gwy_data_field_itor : GwyDataField -> R -> R.

(** The effects of [peak_find(controls, point, idx)]: the row written to
    [controls->p[idx]], and the new selection point when the peak moved. *)
Record peak_found : Type := PeakFound
  { p_x : R; p_y : R; p_z : R; moved : option (R * R) }.

Definition peak_find (dfield : GwyDataField) (point : R * R) (rpx : Z)
  : peak_found :=
  let col := gint_of_gdouble (gwy_data_field_rtoj dfield (fst point)) in
  let row := gint_of_gdouble (gwy_data_field_rtoi dfield (snd point)) in
  let s := peak_scan dfield col row rpx in
  {| p_x := gwy_data_field_jtor dfield (IZR (temp_i s)) + xoffset dfield;
     p_y := gwy_data_field_itor dfield (IZR (temp_j s)) + yoffset dfield;
     p_z := temp_z s;
     moved :=
       if negb ((row - temp_j s =? 0)%Z) || negb ((col - temp_i s =? 0)%Z)
       then Some (gwy_data_field_jtor dfield (IZR (temp_i s)),
                  gwy_data_field_itor dfield (IZR (temp_j s)))
       else None |}.

End PeakFind.

(** ** [get_angles] (lines 1104-1132) *)

(** The angles [(angle1, angle2)] at the second and third of the four peaks
    [controls->p[0..3]], in degrees.  The length [b] of the first angle is
    used again, as it stands, for the second.  [acos] and the division are
    those of the reals, defined everywhere; in C a quotient outside
    [-1, 1], or the quotient 0/0 of two equal peaks, gives not-a-number.
    The properties below say when the quotient is inside [-1, 1]. *)
Definition get_angles (P1 P2 P3 P4 : R * R) : R * R :=
  let (x1, y1) := P1 in
  let (x2, y2) := P2 in
  let (x3, y3) := P3 in
  let (x4, y4) := P4 in
  let ax := x1 - x2 in
  let ay := y1 - y2 in
  let bx := x3 - x2 in
  let by' := y3 - y2 in
  let a := sqrt (ax * ax + ay * ay) in
  let b := sqrt (bx * bx + by' * by') in
  let ab := ax * bx + ay * by' in
  let angle1 := acos (ab / (a * b)) * 180 / PI in
  let ax := x4 - x3 in
  let ay := y4 - y3 in
  let bx := x2 - x3 in
  let by' := y2 - y3 in
  let a := sqrt (ax * ax + ay * ay) in
  let ab := ax * bx + ay * by' in
  let angle2 := acos (ab / (a * b)) * 180 / PI in
  (angle1, angle2).

(** ** Spectrum: [set_dfield_modulus], [fft_postprocess], [perform_fft] *)

(** [hypot] of libm. *)
Definition hypot (x y : R) : R := sqrt (x * x + y * y).

(** [set_dfield_modulus] (lines 1179-1192): the target field after the call.
    The loop runs [xres*yres] times, the three pointers advancing together,
    so its [k]-th round writes [data[k]]. *)
Definition set_dfield_modulus (re im target : GwyDataField) : GwyDataField :=
  let n := (xres re * yres re)%Z in
  {| xres := xres target; yres := yres target;
     xreal := xreal target; yreal := yreal target;
     xoffset := xoffset target; yoffset := yoffset target;
     data := for_loop 0 n
               (fun k d => array_set d k (hypot (array_get (data re) k)
                                                (array_get (data im) k)))
               (data target) |}.

(** Setters and getters of libprocess on the size and offsets of a field. *)
Definition gwy_data_field_set_xreal (f : GwyDataField) (v : R) : GwyDataField :=
  {| xres := xres f; yres := yres f; xreal := v; yreal := yreal f;
     xoffset := xoffset f; yoffset := yoffset f; data := data f |}.
Definition gwy_data_field_set_yreal (f : GwyDataField) (v : R) : GwyDataField :=
  {| xres := xres f; yres := yres f; xreal := xreal f; yreal := v;
     xoffset := xoffset f; yoffset := yoffset f; data := data f |}.
Definition gwy_data_field_set_xoffset (f : GwyDataField) (v : R)
  : GwyDataField :=
  {| xres := xres f; yres := yres f; xreal := xreal f; yreal := yreal f;
     xoffset := v; yoffset := yoffset f; data := data f |}.
Definition gwy_data_field_set_yoffset (f : GwyDataField) (v : R)
  : GwyDataField :=
  {| xres := xres f; yres := yres f; xreal := xreal f; yreal := yreal f;
     xoffset := xoffset f; yoffset := v; data := data f |}.

(** [gwy_data_field_get_xmeasure] and [_ymeasure] of libprocess: the physical
    size of one pixel. *)
Definition gwy_data_field_get_xmeasure (f : GwyDataField) : R :=
  xreal f / IZR (xres f).
Definition gwy_data_field_get_ymeasure (f : GwyDataField) : R :=
  yreal f / IZR (yres f).

(** [gwy_data_field_add(field, value)] of libprocess: adds [value] to every
    sample. *)
Definition gwy_data_field_add (f : GwyDataField) (value : R) : GwyDataField :=
  {| xres := xres f; yres := yres f; xreal := xreal f; yreal := yreal f;
     xoffset := xoffset f; yoffset := yoffset f;
     data := map (fun v => v + value) (data f) |}.

Section Spectrum.

(** The functions of libprocess that the spectrum code only calls: the
    quadrant swap, the pixel-to-physical conversions and the forward 2D FFT
    (with the windowing and the other options the call fixes), which gives
    the real and the imaginary part. *)
Variable gwy_data_field_2dfft_humanize : GwyDataField -> GwyDataField.
Variables gwy_data_field_jtor gwy_data_field_itor : GwyDataField -> R -> R.
Variable gwy_data_field_2dfft : GwyDataField -> GwyDataField * GwyDataField.

(** [fft_postprocess] (lines 1194-1214), units apart. *)
Definition fft_postprocess (dfield : GwyDataField) : GwyDataField :=
  let f := gwy_data_field_2dfft_humanize dfield in
  let f := gwy_data_field_set_xreal f (1 / gwy_data_field_get_xmeasure f) in
  let f := gwy_data_field_set_yreal f (1 / gwy_data_field_get_ymeasure f) in
  let r := IZR (xres f) / 2 in
  let f := gwy_data_field_set_xoffset f (- gwy_data_field_jtor f r) in
  let r := IZR (yres f) / 2 in
  let f := gwy_data_field_set_yoffset f (- gwy_data_field_itor f r) in
  let (dmin, dmax) := gwy_data_field_get_min_max f in
  gwy_data_field_add f (- dmin).

(** [perform_fft] (lines 1156-1177): the field after the call (the palette
    and range type it stores in the container are left out). *)
Definition perform_fft (dfield : GwyDataField) : GwyDataField :=
  let (raout, ipout) := gwy_data_field_2dfft dfield in
  fft_postprocess (set_dfield_modulus raout ipout dfield).

End Spectrum.

(** ** Thresholds and settings *)

Inductive ImageMode : Type :=
  IMAGE_DATA | IMAGE_FFT | IMAGE_CORRECTED | IMAGE_FFT_CORRECTED.

Inductive ZoomMode : Type := ZOOM_1 | ZOOM_2.

(** The integer value of a [ZoomMode]: [ZOOM_1 = 1], [ZOOM_2 = 2]. *)
Definition zoom_value (z : ZoomMode) : Z :=
  match z with ZOOM_1 => 1%Z | ZOOM_2 => 2%Z end.

(** The fields of [ThresholdArgs] that the threshold and preview code uses;
    [arg_lower] and [arg_upper] are [lower] and [upper] of the source. *)
Record ThresholdArgs : Type := Args
  { arg_lower : R; arg_upper : R;
    image_mode : ImageMode; zoom_mode : ZoomMode }.

(** [ThresholdRanges]. *)
Record ThresholdRanges : Type := Ranges { range_min : R; range_max : R }.

(** The macros [MIN] and [MAX] of GLib. *)
Definition G_MIN (a b : R) : R := if Rlt_dec a b then a else b.
Definition G_MAX (a b : R) : R := if Rlt_dec b a then a else b.

(** [gwy_data_field_clamp(field, bottom, top)] of libprocess: samples below
    [bottom] become [bottom], samples above [top] become [top]; the library
    refuses [bottom > top] and then changes nothing. *)
Definition gwy_data_field_clamp (f : GwyDataField) (bottom top : R)
  : GwyDataField :=
  if Rlt_dec top bottom then f
  else
    {| xres := xres f; yres := yres f; xreal := xreal f; yreal := yreal f;
       xoffset := xoffset f; yoffset := yoffset f;
       data := map (fun v => if Rlt_dec v bottom then bottom
                             else if Rlt_dec top v then top else v)
                   (data f) |}.

(** [threshold_do] (lines 1258-1265). *)
Definition threshold_do (args : ThresholdArgs) (dfield : GwyDataField)
  : GwyDataField :=
  let lower := G_MIN (arg_lower args) (arg_upper args) in
  let upper := G_MAX (arg_lower args) (arg_upper args) in
  gwy_data_field_clamp dfield lower upper.

(** What [g_strtod] can return for the text of an entry: a number, an
    infinity (the text "inf", or a number too large for a [gdouble]) or not
    a number (the text "nan"). *)
Inductive gdouble_ext : Type :=
  Finite (x : R) | PlusInf | MinusInf | NaN.

(** The comparisons [num >= r], [num <= r], [num < r] and [num > r] of such
    a value with a number: every comparison with [NaN] is false. *)
Definition gdouble_ge (num : gdouble_ext) (r : R) : bool :=
  match num with
  | Finite x => if Rle_dec r x then true else false
  | PlusInf => true
  | MinusInf | NaN => false
  end.
Definition gdouble_le (num : gdouble_ext) (r : R) : bool :=
  match num with
  | Finite x => if Rle_dec x r then true else false
  | MinusInf => true
  | PlusInf | NaN => false
  end.
Definition gdouble_lt (num : gdouble_ext) (r : R) : bool :=
  match num with
  | Finite x => Rltb x r
  | MinusInf => true
  | PlusInf | NaN => false
  end.
Definition gdouble_gt (num : gdouble_ext) (r : R) : bool :=
  match num with
  | Finite x => Rgtb x r
  | PlusInf => true
  | MinusInf | NaN => false
  end.

(** The value that [threshold_lower_changed] and [threshold_upper_changed]
    (lines 644-684) store for the number [num] read from the entry: [old] is
    the value stored before, which stays when no branch assigns.  The first
    branch stores [num] itself, a number since it lies between [min] and
    [max]. *)
Definition threshold_changed (num : gdouble_ext) (ranges : ThresholdRanges)
    (old : R) : R :=
  if gdouble_ge num (range_min ranges) && gdouble_le num (range_max ranges)
  then match num with Finite x => x | _ => old end
  else if gdouble_lt num (range_min ranges) then range_min ranges
  else if gdouble_gt num (range_max ranges) then range_max ranges
  else old.

(** A value of the settings container and the container itself: the most
    recent value of a key comes first. *)
Inductive gvalue : Type := GDouble (d : R) | GInt32 (n : Z).

Definition GwyContainer : Type := list (string * gvalue).

Fixpoint gwy_container_get (c : GwyContainer) (key : string) : option gvalue :=
  match c with
  | [] => None
  | (k, v) :: rest => if String.eqb k key then Some v
                      else gwy_container_get rest key
  end.

(** [gwy_container_set_double_by_name] and [_set_int32_by_name]. *)
Definition gwy_container_set_double_by_name (c : GwyContainer) (key : string)
    (d : R) : GwyContainer := (key, GDouble d) :: c.
Definition gwy_container_set_int32_by_name (c : GwyContainer) (key : string)
    (n : Z) : GwyContainer := (key, GInt32 n) :: c.

(** [gwy_container_gis_double_by_name] and [_gis_int32_by_name]: the variable
    is updated only when the key is set (to a value of that type). *)
Definition gwy_container_gis_double_by_name (c : GwyContainer) (key : string)
    (cur : R) : R :=
  match gwy_container_get c key with Some (GDouble d) => d | _ => cur end.
Definition gwy_container_gis_int32_by_name (c : GwyContainer) (key : string)
    (cur : Z) : Z :=
  match gwy_container_get c key with Some (GInt32 n) => n | _ => cur end.

(** The keys (lines 1275-1283), by image mode. *)
Definition lower_key (m : ImageMode) : string :=
  match m with
  | IMAGE_DATA => "/module/skew_lattice/lower0"
  | IMAGE_FFT => "/module/skew_lattice/lower1"
  | IMAGE_CORRECTED => "/module/skew_lattice/lower2"
  | IMAGE_FFT_CORRECTED => "/module/skew_lattice/lower3"
  end.
Definition upper_key (m : ImageMode) : string :=
  match m with
  | IMAGE_DATA => "/module/skew_lattice/upper0"
  | IMAGE_FFT => "/module/skew_lattice/upper1"
  | IMAGE_CORRECTED => "/module/skew_lattice/upper2"
  | IMAGE_FFT_CORRECTED => "/module/skew_lattice/upper3"
  end.
Definition radius_key : string := "/module/skew_lattice/radius".

(** [threshold_load_args] (lines 1285-1316): the new [args] and [tool->rpx]
    (the two text entries it refreshes are left out). *)
Definition threshold_load_args (settings : GwyContainer)
    (args : ThresholdArgs) (rpx : Z) : ThresholdArgs * Z :=
  let lower :=
    gwy_container_gis_double_by_name settings (lower_key (image_mode args))
      (arg_lower args) in
  let upper :=
    gwy_container_gis_double_by_name settings (upper_key (image_mode args))
      (arg_upper args) in
  ({| arg_lower := lower; arg_upper := upper;
      image_mode := image_mode args; zoom_mode := zoom_mode args |},
   gwy_container_gis_int32_by_name settings radius_key rpx).

(** [threshold_save_args] (lines 1318-1350): the settings after the call. *)
Definition threshold_save_args (settings : GwyContainer)
    (args : ThresholdArgs) (rpx : Z) : GwyContainer :=
  let s := gwy_container_set_double_by_name settings
             (lower_key (image_mode args)) (arg_lower args) in
  let s := gwy_container_set_double_by_name s
             (upper_key (image_mode args)) (arg_upper args) in
  gwy_container_set_int32_by_name s radius_key rpx.

(** [image_mode_changed] (lines 1236-1247) up to its call of [preview]: the
    new [args] and [tool->rpx], and whether the point layer is editable.
    [current] is the mode of the radio buttons. *)
Definition image_mode_changed (settings : GwyContainer)
    (args : ThresholdArgs) (rpx : Z) (current : ImageMode)
  : ThresholdArgs * Z * bool :=
  let (args1, rpx1) := threshold_load_args settings args rpx in
  ({| arg_lower := arg_lower args1; arg_upper := arg_upper args1;
      image_mode := current; zoom_mode := zoom_mode args1 |},
   rpx1,
   match current with IMAGE_FFT_CORRECTED => true | _ => false end).

(** The area that [preview] (lines 753-760) extracts from a displayed field
    of resolution [Xres] x [Yres] when the zoom is not [ZOOM_1]: the
    arguments [(col, row, width, height)] of [gwy_data_field_area_extract].
    [width] and [height] are [guint]s; the subtraction is the unsigned one,
    modulo 2^32. *)
Definition preview_zoom_area (Xres Yres : Z) (zoom : ZoomMode)
  : option (Z * Z * Z * Z) :=
  match zoom with
  | ZOOM_1 => None
  | _ =>
      let width := Z.lor (Z.quot Xres (zoom_value zoom)) 1 in
      let height := Z.lor (Z.quot Yres (zoom_value zoom)) 1 in
      Some (Z.quot ((Xres - width) mod 2 ^ 32) 2,
            Z.quot ((Yres - height) mod 2 ^ 32) 2, width, height)
  end.

(** ** [skew_create_output] *)

(** The physical size that [skew_create_output] (lines 969-980) sets on the
    output field, from the image and the resolution stored in [args]. *)
Definition skew_create_output_real (image : GwyDataField)
    (args_newxres args_newyres : Z) : R * R :=
  let oxres := IZR (xres image) in
  let oyres := IZR (yres image) in
  let xres' := IZR args_newxres in
  let yres' := IZR args_newyres in
  let xscale := xres' / oxres in
  let yscale := yres' / oyres in
  (xreal image * xscale, yreal image * yscale).

(** ** The specification's wording, for comparison *)

(** The shear as the specification words it: "x-shear driven by the vertical
    angle's tangent applied to y, y-shear driven by the horizontal angle's
    tangent applied to x". *)
Definition spec_shear (Xskew Yskew x y : R) : vec3 :=
  Vec3 (x + tan (deg2rad Yskew) * y) (tan (deg2rad Xskew) * x + y) 1.

(** The angle between the vectors [(ux, uy)] and [(vx, vy)] in degrees, by
    the law of cosines: "angle = acos((a.b)/(|a||b|)) * 180/pi". *)
Definition spec_angle (ux uy vx vy : R) : R :=
  acos ((ux * vx + uy * vy)
        / (sqrt (ux * ux + uy * uy) * sqrt (vx * vx + vy * vy)))
  * 180 / PI.

(** The half-pixel correction as the specification words it, for the map
    [x' = a*x + c*y + tx; y' = b*x + d*y + ty]. *)
Definition spec_half_pixel (a b c d : R) : R * R :=
  (0.5 * (a + c - 1), 0.5 * (b + d - 1)).

(** "(x, y) falls outside [0,W) x [0,H)". *)
Definition spec_outside (W H : Z) (x y : R) : Prop :=
  ~ (0 <= x < IZR W /\ 0 <= y < IZR H).


(** Column-major scan order, the order of the loops of [peak_find]. *)
Definition column_major_before (a b : Z * Z) : Prop :=
  (fst a < fst b)%Z \/ (fst a = fst b /\ (snd a < snd b)%Z).

(** The window of [peak_find] around [(col, row)]. *)
Definition in_window (dfield : GwyDataField) (col row r : Z) (a : Z * Z)
  : Prop :=
  (Z.max 0 (col - r) <= fst a < Z.min (xres dfield) (col + r))%Z /\
  (Z.max 0 (row - r) <= snd a < Z.min (yres dfield) (row + r))%Z.


(** ** Invariants of the loops of [peak_find] *)

(** The pixels read before the loops reach column [i] and row [j]: rows
    [lj .. hj-1] of the columns from [li] up to [i-1], and rows [lj .. j-1]
    of column [i]. *)
Definition peak_processed (li lj hj i j : Z) (a : Z * Z) : Prop :=
  (li <= fst a)%Z /\ (lj <= snd a < hj)%Z /\
  ((fst a < i)%Z \/ (fst a = i /\ (snd a < j)%Z)).

(** What holds of the running maximum when the loops reach column [i] and
    row [j]. *)
Definition peak_inv (dfield : GwyDataField) (col row li lj hj i j : Z)
    (s : peak) : Prop :=
  temp_z s = sample dfield (temp_i s, temp_j s) /\
  sample dfield (col, row) <= temp_z s /\
  (forall a, In a (examined s) <-> peak_processed li lj hj i j a) /\
  (forall a, peak_processed li lj hj i j a -> sample dfield a <= temp_z s) /\
  ((temp_i s = col /\ temp_j s = row /\
    temp_z s = sample dfield (col, row)) \/
   (sample dfield (col, row) < temp_z s /\
    peak_processed li lj hj i j (temp_i s, temp_j s) /\
    forall a, peak_processed li lj hj i j a ->
              column_major_before a (temp_i s, temp_j s) ->
              sample dfield a < temp_z s)).

(** ** Invariant of the loops of [affine] *)

(** When the loops of [affine] over a [W] x [H] destination reach column [i]
    and row [j], every pixel met before holds its value [v]. *)
Definition affine_written (W H : Z) (v : Z -> Z -> R) (i j : Z)
    (d : list R) : Prop :=
  length d = Z.to_nat (W * H) /\
  forall i' j', (0 <= i' < W)%Z -> (0 <= j' < H)%Z ->
                ((i' < i)%Z \/ (i' = i /\ (j' < j)%Z)) ->
                array_get d (i' + W * j') = v i' j'.

(** ** Invariant of the loops that gather the neighbourhood *)

(** When the loops of [affine] over the offsets [sf .. st] reach the offsets
    [i] and [j], every entry of [coeff] met before holds its value [v]. *)
Definition gather_written (sf st suplen : Z) (v : Z -> Z -> R) (i j : Z)
    (coeff : list R) : Prop :=
  length coeff = Z.to_nat (suplen * suplen) /\
  forall i' j', (sf <= i' <= st)%Z -> (sf <= j' <= st)%Z ->
                ((i' < i)%Z \/ (i' = i /\ (j' < j)%Z)) ->
                array_get coeff ((i' - sf) * suplen + j' - sf) = v i' j'.

(** A peak position after the change of coordinates [p -> k*p + (tx, ty)]
    (another unit of length, another origin). *)
Definition rescale (k tx ty : R) (P : R * R) : R * R :=
  (k * fst P + tx, k * snd P + ty).

(** ** Concrete inputs *)

(** A 2 x 2 image. *)
Definition image_2x2 : GwyDataField :=
  {| xres := 2; yres := 2; xreal := 2; yreal := 2; xoffset := 0; yoffset := 0;
     data := [1; 2; 3; 4] |}.

(** A 3 x 3 spectrum with the value 5 at (column 1, row 0) and at
    (column 0, row 1), and 0 elsewhere. *)
Definition spectrum_3x3 : GwyDataField :=
  {| xres := 3; yres := 3; xreal := 3; yreal := 3; xoffset := 0; yoffset := 0;
     data := [0; 5; 0;
              5; 0; 0;
              0; 0; 0] |}.

(** A flat 3 x 3 spectrum: every sample is 0. *)
Definition flat_3x3 : GwyDataField :=
  {| xres := 3; yres := 3; xreal := 3; yreal := 3; xoffset := 0; yoffset := 0;
     data := [0; 0; 0;
              0; 0; 0;
              0; 0; 0] |}.

(** A one-sample kernel: support size 1, interpolating basis, the value of
    the single gathered sample.  It only serves to run the resampler on
    concrete inputs. *)
Definition one_sample_kernel : GwyInterpolation unit :=
  {| GWY_INTERPOLATION_BILINEAR := tt;
     gwy_interpolation_get_support_size := fun _ => 1%Z;
     gwy_interpolation_has_interpolating_basis := fun _ => true;
     gwy_interpolation_resolve_coeffs_2d := fun _ _ _ d _ => d;
     gwy_interpolation_interpolate_2d := fun _ _ _ coeff _ => nth 0 coeff 0 |}.

(** The identity map followed by a shift of 2 along x, as an inverse map. *)
Definition shift_by_2 : matrix :=
  {| e0 := 1; e1 := 0; e2 := 0; e3 := 1; e4 := 2; e5 := 0 |}.

(** * Properties *)

Lemma Rltb_true (x y : R) : Rltb x y = true <-> x < y.
Proof. unfold Rltb; destruct (Rlt_dec x y); split; intros; congruence || lra. Qed.

Lemma Rltb_false (x y : R) : Rltb x y = false <-> y <= x.
Proof. unfold Rltb; destruct (Rlt_dec x y); split; intros; congruence || lra. Qed.

(** ** Matrix helpers *)

Lemma invert_matrix_left (m : matrix) (p : vec3) :
  matrix_det m <> 0 ->
  mult_3matrix (invert_matrix m) (mult_3matrix m p) = p.
Proof.
  intros HD. destruct m as [a b c d tx ty], p as [x y w].
  unfold invert_matrix, mult_3matrix, matrix_det in *; simpl in *.
  f_equal; field; exact HD.
Qed.

Lemma invert_matrix_right (m : matrix) (p : vec3) :
  matrix_det m <> 0 ->
  p2 p = 1 ->
  mult_3matrix m (mult_3matrix (invert_matrix m) p) = p.
Proof.
  intros HD Hw. destruct m as [a b c d tx ty], p as [x y w].
  unfold invert_matrix, mult_3matrix, matrix_det in *; simpl in *.
  subst w. f_equal; field; exact HD.
Qed.

(** ** Tangents of skew angles *)

Lemma deg2rad_bounds (a lim : R) :
  Rabs a <= lim -> - (lim * PI / 180) <= deg2rad a <= lim * PI / 180.
Proof.
  intros H. unfold deg2rad. pose proof PI_RGT_0 as HPI.
  unfold Rabs in H. destruct (Rcase_abs a); split; nra.
Qed.

Lemma tan_lt_1 (x : R) : - (PI / 4) < x < PI / 4 -> -1 < tan x < 1.
Proof.
  intros [Hl Hu]. pose proof PI_RGT_0 as HPI.
  assert (Hlo : tan (- (PI / 4)) < tan x) by (apply tan_increasing; lra).
  assert (Hhi : tan x < tan (PI / 4)) by (apply tan_increasing; lra).
  rewrite tan_neg, tan_PI4 in Hlo. rewrite tan_PI4 in Hhi. lra.
Qed.

Lemma skew_tan_small (a : R) : Rabs a <= 30 -> -1 < tan (deg2rad a) < 1.
Proof.
  intros H. apply deg2rad_bounds in H. pose proof PI_RGT_0 as HPI.
  apply tan_lt_1. lra.
Qed.

Lemma skew_Trans_det (Xskew Yskew tx ty : R) :
  matrix_det (skew_Trans Xskew Yskew tx ty)
  = 1 - tan (deg2rad Yskew) * tan (deg2rad Xskew).
Proof. unfold matrix_det, skew_Trans; simpl. ring. Qed.

Lemma skew_Trans_invertible (Xskew Yskew tx ty : R) :
  Rabs Xskew <= 30 -> Rabs Yskew <= 30 ->
  0 < matrix_det (skew_Trans Xskew Yskew tx ty).
Proof.
  intros HX HY. rewrite skew_Trans_det.
  apply skew_tan_small in HX. apply skew_tan_small in HY. nra.
Qed.

(** ** The shear matrix (C1) *)

(** C1, as amended: for every pair of skew angles the forward shear matrix
    built by [skew_process] maps a point [(x, y)] to
    [(x + tan(Xskew)*y, tan(Yskew)*x + y)]: the x-shear is driven by the
    horizontal angle's tangent applied to y, the y-shear by the vertical
    angle's tangent applied to x. *)
Theorem skew_Trans_point (Xskew Yskew x y : R) :
  mult_3matrix (skew_Trans Xskew Yskew 0 0) (Vec3 x y 1)
  = Vec3 (x + tan (deg2rad Xskew) * y) (tan (deg2rad Yskew) * x + y) 1.
Proof.
  unfold mult_3matrix, skew_Trans; simpl. f_equal; ring.
Qed.

Lemma deg2rad_30 : deg2rad 30 = PI / 6.
Proof. unfold deg2rad. field. Qed.

Lemma deg2rad_0 : deg2rad 0 = 0.
Proof. unfold deg2rad. field. Qed.

Lemma tan_30_pos : 0 < tan (deg2rad 30).
Proof.
  rewrite deg2rad_30. pose proof PI_RGT_0. apply tan_gt_0; lra.
Qed.

(** C1, as the specification states it, fails: with [Xskew = 30] and
    [Yskew = 0] the point [(0, 1)] moves along x by [tan 30], whereas the
    specification's shear leaves it where it is. *)
Lemma skew_Trans_not_spec_shear :
  mult_3matrix (skew_Trans 30 0 0 0) (Vec3 0 1 1) <> spec_shear 30 0 0 1.
Proof.
  unfold spec_shear. rewrite deg2rad_0, tan_0.
  intros H. apply (f_equal p0) in H.
  unfold mult_3matrix, skew_Trans in H. cbn [p0 p1 p2 e0 e2 e4] in H.
  pose proof tan_30_pos. lra.
Qed.

(** ** Inversion of the shear (C3) *)

Lemma skew_Trans_invert_left (Xskew Yskew tx ty : R) (p : vec3) :
  -30 <= Xskew <= 30 ->
  -30 <= Yskew <= 30 ->
  mult_3matrix (invert_matrix (skew_Trans Xskew Yskew tx ty))
    (mult_3matrix (skew_Trans Xskew Yskew tx ty) p) = p.
Proof.
  intros HX HY. apply invert_matrix_left.
  assert (0 < matrix_det (skew_Trans Xskew Yskew tx ty)).
  { apply skew_Trans_invertible; apply Rabs_le; lra. }
  lra.
Qed.

Lemma skew_canvas_Trans (image : GwyDataField) (Xskew Yskew : R) :
  let b := skew_bbox Xskew Yskew (IZR (xres image)) (IZR (yres image)) in
  Trans (skew_canvas image Xskew Yskew)
  = skew_Trans Xskew Yskew (- lowX b) (- lowY b) /\
  iTrans (skew_canvas image Xskew Yskew)
  = invert_matrix (skew_Trans Xskew Yskew (- lowX b) (- lowY b)).
Proof.
  unfold skew_canvas. destruct (gwy_data_field_get_min_max image). simpl.
  split; reflexivity.
Qed.

(** C3: for skew angles in [-30, 30] degrees, the matrix [iTrans] that
    [skew_process] computes by [invert_matrix] undoes its forward matrix
    [Trans] (shear and translation): applying [Trans] and then [iTrans] to
    any point, by [mult_3matrix], gives the point back. *)
Theorem skew_invert_identity (image : GwyDataField) (Xskew Yskew : R)
    (p : vec3) :
  -30 <= Xskew <= 30 ->
  -30 <= Yskew <= 30 ->
  let m := skew_canvas image Xskew Yskew in
  mult_3matrix (iTrans m) (mult_3matrix (Trans m) p) = p.
Proof.
  intros HX HY m. subst m.
  destruct (skew_canvas_Trans image Xskew Yskew) as [-> ->].
  apply skew_Trans_invert_left; assumption.
Qed.

Lemma skew_invert_identity_witness :
  let m := skew_canvas image_2x2 30 (-30) in
  mult_3matrix (iTrans m) (mult_3matrix (Trans m) (Vec3 3 4 1)) = Vec3 3 4 1.
Proof. apply skew_invert_identity; lra. Defined.

(** ** Rounding *)

Lemma floorZ_spec (x : R) : IZR (floorZ x) <= x < IZR (floorZ x) + 1.
Proof.
  unfold floorZ. destruct (base_Int_part x) as [H1 H2]. lra.
Qed.

Lemma floorZ_unique (x : R) (z : Z) : IZR z <= x < IZR z + 1 -> floorZ x = z.
Proof.
  intros H. unfold floorZ. symmetry. apply Int_part_spec. lra.
Qed.

Lemma floorZ_le (x y : R) : x <= y -> (floorZ x <= floorZ y)%Z.
Proof.
  intros Hxy. pose proof (floorZ_spec x) as Hx. pose proof (floorZ_spec y) as Hy.
  apply Z.lt_succ_r. apply lt_IZR. rewrite succ_IZR. lra.
Qed.

Lemma GWY_ROUND_le (x y : R) : x <= y -> (GWY_ROUND x <= GWY_ROUND y)%Z.
Proof. intros H. unfold GWY_ROUND. apply floorZ_le. lra. Qed.

Lemma GWY_ROUND_IZR (n : Z) : GWY_ROUND (IZR n) = n.
Proof. unfold GWY_ROUND. apply floorZ_unique. lra. Qed.

(** ** The bounding box of the sheared rectangle *)

Lemma lower_Rmin (low v : R) : lower low v = Rmin low v.
Proof.
  unfold lower, Rmin. destruct (Rlt_dec v low), (Rle_dec low v); lra.
Qed.

Lemma higher_Rmax (high v : R) : higher high v = Rmax high v.
Proof.
  unfold higher, Rmax. destruct (Rlt_dec high v), (Rle_dec high v); lra.
Qed.

Ltac split_minmax :=
  unfold Rmax, Rmin, Rabs in *;
  repeat match goal with
         | |- context [Rle_dec ?a ?b] => destruct (Rle_dec a b)
         | H : context [Rle_dec ?a ?b] |- _ => destruct (Rle_dec a b)
         | |- context [Rcase_abs ?a] => destruct (Rcase_abs a)
         end.

Lemma shear_extent (w s : R) :
  0 <= w ->
  Rmax (Rmax (Rmax 0 w) (w + s)) s - Rmin (Rmin (Rmin 0 w) (w + s)) s
  = w + Rabs s.
Proof.
  intros Hw. split_minmax; lra.
Qed.

Lemma skew_bbox_width (Xskew Yskew W H : R) :
  0 <= W -> 0 <= H ->
  let b := skew_bbox Xskew Yskew W H in
  highX b - lowX b = W + Rabs (tan (deg2rad Xskew)) * H.
Proof.
  intros HW HH. unfold skew_bbox, skew_corners, mult_3matrix, skew_Trans.
  simpl. rewrite !lower_Rmin, !higher_Rmax.
  set (t := tan (deg2rad Xskew)).
  replace (1 * 0 + t * 0 + 0 * 1) with 0 by ring.
  replace (1 * W + t * 0 + 0 * 1) with W by ring.
  replace (1 * W + t * H + 0 * 1) with (W + t * H) by ring.
  replace (1 * 0 + t * H + 0 * 1) with (t * H) by ring.
  rewrite shear_extent by exact HW.
  rewrite Rabs_mult, (Rabs_right H) by lra. reflexivity.
Qed.

Lemma skew_bbox_height (Xskew Yskew W H : R) :
  0 <= W -> 0 <= H ->
  let b := skew_bbox Xskew Yskew W H in
  highY b - lowY b = H + Rabs (tan (deg2rad Yskew)) * W.
Proof.
  intros HW HH. unfold skew_bbox, skew_corners, mult_3matrix, skew_Trans.
  simpl. rewrite !lower_Rmin, !higher_Rmax.
  set (t := tan (deg2rad Yskew)).
  replace (t * 0 + 1 * 0 + 0 * 1) with 0 by ring.
  replace (t * W + 1 * 0 + 0 * 1) with (t * W) by ring.
  replace (t * W + 1 * H + 0 * 1) with (H + t * W) by ring.
  replace (t * 0 + 1 * H + 0 * 1) with H by ring.
  replace (Rmax (Rmax (Rmax 0 (t * W)) (H + t * W)) H
           - Rmin (Rmin (Rmin 0 (t * W)) (H + t * W)) H)
    with (Rmax (Rmax (Rmax 0 H) (H + t * W)) (t * W)
          - Rmin (Rmin (Rmin 0 H) (H + t * W)) (t * W)).
  - rewrite shear_extent by exact HH.
    rewrite Rabs_mult, (Rabs_right W) by lra. reflexivity.
  - clear. generalize (t * W). intros s. split_minmax; lra.
Qed.

Lemma skew_canvas_res (image : GwyDataField) (Xskew Yskew : R) :
  (0 <= xres image)%Z -> (0 <= yres image)%Z ->
  newxres (skew_canvas image Xskew Yskew)
  = GWY_ROUND (IZR (xres image)
               + Rabs (tan (deg2rad Xskew)) * IZR (yres image)) /\
  newyres (skew_canvas image Xskew Yskew)
  = GWY_ROUND (IZR (yres image)
               + Rabs (tan (deg2rad Yskew)) * IZR (xres image)).
Proof.
  intros HW HH. apply IZR_le in HW, HH.
  unfold skew_canvas. destruct (gwy_data_field_get_min_max image).
  cbn [newxres newyres].
  rewrite skew_bbox_width, skew_bbox_height by assumption.
  split; reflexivity.
Qed.

(** ** The conversion to [gint] *)






(** ** The canvas is never empty (C6) *)





(** ** Shearing never shrinks the canvas (C7) *)



Lemma tan_le (x y : R) : - (PI / 2) < x -> x <= y -> y < PI / 2 -> tan x <= tan y.
Proof.
  intros Hx [Hlt | ->] Hy.
  - left. apply tan_increasing; lra.
  - right. reflexivity.
Qed.





(** ** Angles of a square lattice (C8) *)

Lemma right_angle_degrees : acos 0 * 180 / PI = 90.
Proof.
  rewrite acos_0. pose proof PI_RGT_0. field. lra.
Qed.

(** C8: for the four points p1 = (0,1), p2 = (0,0), p3 = (1,0), p4 = (1,1)
    the angle computation returns angle123 = 90 and angle234 = 90 degrees. *)
Theorem get_angles_square :
  get_angles (0, 1) (0, 0) (1, 0) (1, 1) = (90, 90).
Proof.
  unfold get_angles.
  replace ((0 - 0) * (0 - 0) + (1 - 0) * (1 - 0)) with 1 by ring.
  replace ((1 - 0) * (1 - 0) + (0 - 0) * (0 - 0)) with 1 by ring.
  replace ((1 - 1) * (1 - 1) + (1 - 0) * (1 - 0)) with 1 by ring.
  rewrite sqrt_1.
  replace (((0 - 0) * (1 - 0) + (1 - 0) * (0 - 0)) / (1 * 1)) with 0 by field.
  replace (((1 - 1) * (0 - 1) + (1 - 0) * (0 - 0)) / (1 * 1)) with 0 by field.
  rewrite right_angle_degrees. reflexivity.
Qed.

(** ** Loops *)

Lemma Zrange_nil (lo hi : Z) : (hi <= lo)%Z -> Zrange lo hi = [].
Proof.
  intros H. unfold Zrange. replace (Z.to_nat (hi - lo)) with 0%nat by lia.
  reflexivity.
Qed.

Lemma Zrange_snoc (lo hi : Z) :
  (lo <= hi)%Z -> Zrange lo (hi + 1) = Zrange lo hi ++ [hi].
Proof.
  intros H. unfold Zrange.
  replace (Z.to_nat (hi + 1 - lo)) with (S (Z.to_nat (hi - lo))) by lia.
  rewrite seq_S, map_app. simpl. do 2 f_equal. lia.
Qed.

Lemma Zrange_cons (lo hi : Z) :
  (lo < hi)%Z -> Zrange lo hi = lo :: Zrange (lo + 1) hi.
Proof.
  intros H. unfold Zrange.
  replace (Z.to_nat (hi - lo)) with (S (Z.to_nat (hi - (lo + 1)))) by lia.
  simpl. f_equal; [lia |].
  rewrite <- seq_shift, map_map. apply map_ext. intros k. lia.
Qed.

Lemma In_Zrange (lo hi k : Z) : In k (Zrange lo hi) <-> (lo <= k < hi)%Z.
Proof.
  unfold Zrange. rewrite in_map_iff. split.
  - intros [n [<- Hn]]. apply in_seq in Hn. lia.
  - intros H. exists (Z.to_nat (k - lo)). split; [lia |].
    apply in_seq. lia.
Qed.

Lemma for_loop_nil {St : Type} (lo hi : Z) (body : Z -> St -> St) (s : St) :
  (hi <= lo)%Z -> for_loop lo hi body s = s.
Proof. intros H. unfold for_loop. rewrite Zrange_nil by exact H. reflexivity. Qed.

Lemma for_loop_snoc {St : Type} (lo hi : Z) (body : Z -> St -> St) (s : St) :
  (lo <= hi)%Z ->
  for_loop lo (hi + 1) body s = body hi (for_loop lo hi body s).
Proof.
  intros H. unfold for_loop. rewrite Zrange_snoc by exact H.
  rewrite fold_left_app. reflexivity.
Qed.

Lemma for_loop_cons {St : Type} (lo hi : Z) (body : Z -> St -> St) (s : St) :
  (lo < hi)%Z ->
  for_loop lo hi body s = for_loop (lo + 1) hi body (body lo s).
Proof.
  intros H. unfold for_loop. rewrite Zrange_cons by exact H. reflexivity.
Qed.

(** The invariant rule for [for (k = lo; k < hi; k++)]: an invariant that
    holds on entry and is kept by the body holds on exit, where the counter
    is [hi], or [lo] when the loop does not run. *)
Lemma for_loop_ind {St : Type} (P : Z -> St -> Prop) (lo hi : Z)
    (body : Z -> St -> St) (s : St) :
  P lo s ->
  (forall k t, (lo <= k < hi)%Z -> P k t -> P (k + 1)%Z (body k t)) ->
  P (Z.max lo hi) (for_loop lo hi body s).
Proof.
  intros H0 Hstep.
  destruct (Z_le_gt_dec hi lo) as [Hle | Hgt].
  - rewrite for_loop_nil by exact Hle. rewrite Z.max_l by lia. exact H0.
  - rewrite Z.max_r by lia.
    assert (Hn : forall n : nat, (lo + Z.of_nat n <= hi)%Z ->
                 P (lo + Z.of_nat n)%Z (for_loop lo (lo + Z.of_nat n) body s)).
    { induction n as [| n IH]; intros Hb.
      - rewrite Z.add_0_r. rewrite for_loop_nil by lia. exact H0.
      - replace (lo + Z.of_nat (S n))%Z with (lo + Z.of_nat n + 1)%Z by lia.
        rewrite for_loop_snoc by lia. apply Hstep; [lia |]. apply IH. lia. }
    specialize (Hn (Z.to_nat (hi - lo))).
    replace (lo + Z.of_nat (Z.to_nat (hi - lo)))%Z with hi in Hn by lia.
    apply Hn. lia.
Qed.

Lemma for_loop_ext {St : Type} (lo hi : Z) (body1 body2 : Z -> St -> St)
    (s : St) :
  (forall k t, (lo <= k < hi)%Z -> body1 k t = body2 k t) ->
  for_loop lo hi body1 s = for_loop lo hi body2 s.
Proof.
  intros Hext. unfold for_loop.
  assert (Hin : forall k, In k (Zrange lo hi) -> (lo <= k < hi)%Z)
    by (intros k; apply In_Zrange).
  revert s. induction (Zrange lo hi) as [| k l IH]; intros s; simpl.
  - reflexivity.
  - rewrite Hext by (apply Hin; left; reflexivity).
    apply IH. intros k' Hk'. apply Hin. right. exact Hk'.
Qed.

(** ** [peak_find]: the scan and its maximum (C5, C9) *)

Lemma peak_processed_step (li lj hj i j : Z) (a : Z * Z) :
  (li <= i)%Z -> (lj <= j < hj)%Z ->
  (peak_processed li lj hj i (j + 1) a
   <-> peak_processed li lj hj i j a \/ a = (i, j)).
Proof.
  intros Hi Hj. destruct a as [x y]. unfold peak_processed; simpl. split.
  - intros (H1 & H2 & H3).
    destruct (Z.eq_dec x i) as [-> | Hx], (Z.eq_dec y j) as [-> | Hy];
      try (right; reflexivity); left; lia.
  - intros [(H1 & H2 & H3) | H]; [lia |].
    injection H as -> ->. lia.
Qed.

Lemma peak_processed_next_column (li lj hj i : Z) (a : Z * Z) :
  peak_processed li lj hj i (Z.max lj hj) a
  <-> peak_processed li lj hj (i + 1) lj a.
Proof. unfold peak_processed. lia. Qed.

Lemma peak_processed_window (dfield : GwyDataField) (col row r : Z)
    (a : Z * Z) :
  peak_processed (peak_low col r) (peak_low row r)
    (peak_high row r (yres dfield))
    (Z.max (peak_low col r) (peak_high col r (xres dfield)))
    (peak_low row r) a
  <-> in_window dfield col row r a.
Proof.
  unfold peak_processed, in_window, peak_low, peak_high.
  destruct (Z.ltb_spec (col - r) 0), (Z.ltb_spec (row - r) 0),
    (Z.gtb_spec (col + r) (xres dfield)), (Z.gtb_spec (row + r) (yres dfield));
    lia.
Qed.

Lemma peak_inv_equiv (dfield : GwyDataField) (col row li lj hj i j i' j' : Z)
    (s : peak) :
  (forall a, peak_processed li lj hj i j a <-> peak_processed li lj hj i' j' a) ->
  peak_inv dfield col row li lj hj i j s ->
  peak_inv dfield col row li lj hj i' j' s.
Proof.
  intros Heq (Hz & H0 & Hex & Hmax & Htie).
  refine (conj Hz (conj H0 (conj _ (conj _ _)))).
  - intros a. rewrite <- Heq. apply Hex.
  - intros a Ha. apply Hmax, Heq, Ha.
  - destruct Htie as [Hl | (Hlt & Hp & Hfirst)]; [left; exact Hl | right].
    refine (conj Hlt (conj _ _)).
    + apply Heq, Hp.
    + intros a Ha Hb. apply Hfirst; [apply Heq, Ha | exact Hb].
Qed.

Lemma peak_inv_init (dfield : GwyDataField) (col row li lj hj : Z) :
  peak_inv dfield col row li lj hj li lj
    {| temp_i := col; temp_j := row;
       temp_z := gwy_data_field_get_val dfield col row; examined := [] |}.
Proof.
  unfold peak_inv, sample; simpl.
  refine (conj eq_refl (conj (Rle_refl _) (conj _ (conj _ _)))).
  - intros a. unfold peak_processed. split; [intros [] | lia].
  - intros a Ha. unfold peak_processed in Ha. lia.
  - left. repeat split.
Qed.

Lemma column_major_before_irrefl (a : Z * Z) : ~ column_major_before a a.
Proof. unfold column_major_before. lia. Qed.

Lemma column_major_before_asym (a b : Z * Z) :
  column_major_before a b -> ~ column_major_before b a.
Proof. unfold column_major_before. lia. Qed.

Lemma peak_processed_before (li lj hj i j : Z) (a : Z * Z) :
  peak_processed li lj hj i j a -> column_major_before a (i, j).
Proof. unfold peak_processed, column_major_before; simpl. lia. Qed.

(** One iteration of the inner loop keeps the invariant. *)
Lemma peak_inv_step (dfield : GwyDataField) (col row li lj hj i j : Z)
    (s : peak) :
  (li <= i)%Z -> (lj <= j < hj)%Z ->
  peak_inv dfield col row li lj hj i j s ->
  peak_inv dfield col row li lj hj i (j + 1) (peak_step dfield i j s).
Proof.
  intros Hi Hj (Hz & H0 & Hex & Hmax & Htie).
  assert (Hnew : forall a, In a ((i, j) :: examined s)
                           <-> peak_processed li lj hj i (j + 1) a).
  { intros a. rewrite peak_processed_step by assumption. simpl.
    rewrite Hex. split; intros [H | H]; auto. }
  unfold peak_step, Rgtb.
  change (gwy_data_field_get_val dfield i j) with (sample dfield (i, j)).
  destruct (Rltb (temp_z s) (sample dfield (i, j))) eqn:E.
  - apply Rltb_true in E. unfold peak_inv; simpl.
    refine (conj eq_refl (conj _ (conj Hnew (conj _ _)))).
    + lra.
    + intros a Ha. apply peak_processed_step in Ha; try assumption.
      destruct Ha as [Ha | ->]; [apply Hmax in Ha; lra | lra].
    + right. refine (conj _ (conj _ _)).
      * lra.
      * apply peak_processed_step; auto.
      * intros a Ha Hb. apply peak_processed_step in Ha; try assumption.
        destruct Ha as [Ha | ->].
        -- apply Hmax in Ha. lra.
        -- exfalso. exact (column_major_before_irrefl _ Hb).
  - apply Rltb_false in E. unfold peak_inv; simpl.
    refine (conj Hz (conj H0 (conj Hnew (conj _ _)))).
    + intros a Ha. apply peak_processed_step in Ha; try assumption.
      destruct Ha as [Ha | ->]; [apply Hmax, Ha | exact E].
    + destruct Htie as [Hl | (Hlt & Hp & Hfirst)]; [left; exact Hl | right].
      refine (conj Hlt (conj _ _)).
      * apply peak_processed_step; auto.
      * intros a Ha Hb. apply peak_processed_step in Ha; try assumption.
        destruct Ha as [Ha | ->]; [apply Hfirst; assumption |].
        exfalso. apply peak_processed_before in Hp.
        exact (column_major_before_asym _ _ Hp Hb).
Qed.

(** The inner loop takes the invariant from the start of column [i] to the
    start of column [i + 1]. *)
Lemma peak_inv_column (dfield : GwyDataField) (col row li lj hj i : Z)
    (s : peak) :
  (li <= i)%Z ->
  peak_inv dfield col row li lj hj i lj s ->
  peak_inv dfield col row li lj hj (i + 1) lj
    (for_loop lj hj (fun j t => peak_step dfield i j t) s).
Proof.
  intros Hi Hs.
  apply peak_inv_equiv with (i := i) (j := Z.max lj hj).
  - intros a. apply peak_processed_next_column.
  - apply (for_loop_ind (fun j t => peak_inv dfield col row li lj hj i j t)).
    + exact Hs.
    + intros k t Hk Ht. apply peak_inv_step; [exact Hi | exact Hk | exact Ht].
Qed.

(** The invariant at the exit of the outer loop. *)
Lemma peak_scan_inv (dfield : GwyDataField) (col row r : Z) :
  peak_inv dfield col row (peak_low col r) (peak_low row r)
    (peak_high row r (yres dfield))
    (Z.max (peak_low col r) (peak_high col r (xres dfield)))
    (peak_low row r)
    (peak_scan dfield col row r).
Proof.
  unfold peak_scan.
  apply (for_loop_ind
           (fun i t => peak_inv dfield col row (peak_low col r)
                         (peak_low row r) (peak_high row r (yres dfield))
                         i (peak_low row r) t)).
  - apply peak_inv_init.
  - intros k t Hk Ht. apply peak_inv_column; [lia | exact Ht].
Qed.





(** *** Running the scan on a concrete spectrum *)

Lemma peak_step_gt (f : GwyDataField) (i j : Z) (s : peak) :
  temp_z s < gwy_data_field_get_val f i j ->
  peak_step f i j s
  = Peak i j (gwy_data_field_get_val f i j) ((i, j) :: examined s).
Proof.
  intros H. unfold peak_step, Rgtb.
  rewrite (proj2 (Rltb_true _ _) H). reflexivity.
Qed.

Lemma peak_step_le (f : GwyDataField) (i j : Z) (s : peak) :
  gwy_data_field_get_val f i j <= temp_z s ->
  peak_step f i j s
  = Peak (temp_i s) (temp_j s) (temp_z s) ((i, j) :: examined s).
Proof.
  intros H. unfold peak_step, Rgtb.
  rewrite (proj2 (Rltb_false _ _) H). reflexivity.
Qed.

Ltac eval_Z t := let v := eval vm_compute in t in change t with v.

Ltac run_loops :=
  repeat (first [ rewrite for_loop_cons by lia | rewrite for_loop_nil by lia ];
          cbv beta).

Ltac eval_samples := unfold gwy_data_field_get_val, array_get; simpl.

Ltac run_peak :=
  repeat match goal with
         | |- context [peak_step ?f ?i ?j (Peak ?a ?b ?c ?d)] =>
             first [ rewrite (peak_step_gt f i j (Peak a b c d))
                       by (eval_samples; lra)
                   | rewrite (peak_step_le f i j (Peak a b c d))
                       by (eval_samples; lra) ];
             cbn [temp_i temp_j temp_z examined]
         end.



(** ** Arrays *)

Lemma list_set_length (a : list R) (n : nat) (v : R) :
  length (list_set a n v) = length a.
Proof.
  revert n. induction a as [| x t IH]; intros [| n]; simpl; auto.
Qed.

Lemma nth_list_set_same (a : list R) (n : nat) (v : R) :
  (n < length a)%nat -> nth n (list_set a n v) 0 = v.
Proof.
  revert n. induction a as [| x t IH]; intros [| n] H; simpl in *;
    try lia; auto. apply IH. lia.
Qed.

Lemma nth_list_set_other (a : list R) (n m : nat) (v : R) :
  n <> m -> nth m (list_set a n v) 0 = nth m a 0.
Proof.
  revert n m. induction a as [| x t IH]; intros [| n] [| m] H; simpl;
    auto; try congruence.
Qed.

Lemma array_set_length (a : list R) (k : Z) (v : R) :
  length (array_set a k v) = length a.
Proof.
  unfold array_set. destruct (k <? 0)%Z; [reflexivity | apply list_set_length].
Qed.

Lemma array_get_set_same (a : list R) (k : Z) (v : R) :
  (0 <= k < Z.of_nat (length a))%Z -> array_get (array_set a k v) k = v.
Proof.
  intros H. unfold array_get, array_set.
  destruct (Z.ltb_spec k 0); [lia |]. apply nth_list_set_same. lia.
Qed.

Lemma array_get_set_other (a : list R) (k k' : Z) (v : R) :
  k <> k' -> array_get (array_set a k v) k' = array_get a k'.
Proof.
  intros H. unfold array_get, array_set.
  destruct (Z.ltb_spec k' 0); [reflexivity |].
  destruct (Z.ltb_spec k 0); [reflexivity |].
  apply nth_list_set_other. lia.
Qed.

(** ** [affine]: indices of the gathered neighbourhood (C10) *)

Lemma support_bounds (suplen : Z) :
  (0 < suplen)%Z ->
  (0 <= support_to suplen)%Z /\ (- support_to suplen <= support_from suplen <= 0)%Z.
Proof.
  intros H. unfold support_to, support_from.
  assert (0 <= Z.quot (suplen - 1) 2)%Z by (apply Z.quot_pos; lia).
  assert (Z.quot (suplen - 1) 2 <= Z.quot suplen 2)%Z
    by (apply Z.quot_le_mono; lia).
  lia.
Qed.

Lemma wrap_index_range (res st old off : Z) :
  (1 <= res)%Z -> (0 <= old + off + 2 * st * res)%Z ->
  (0 <= wrap_index res st old off < res)%Z.
Proof.
  intros Hres Hk. unfold wrap_index.
  pose proof (Z.rem_bound_pos (old + off + 2 * st * res) (2 * res) Hk) as Hb.
  destruct (Z.geb_spec (Z.rem (old + off + 2 * st * res) (2 * res)) res); lia.
Qed.

Lemma affine_inside_floor (xr yr : Z) (x y : R) :
  affine_outside xr yr x y = false ->
  (0 <= floorZ x <= xr)%Z /\ (0 <= floorZ y <= yr)%Z.
Proof.
  unfold affine_outside, Rgtb. intros H.
  apply orb_false_iff in H. destruct H as [H Hx0].
  apply orb_false_iff in H. destruct H as [H Hy0].
  apply orb_false_iff in H. destruct H as [Hyr Hxr].
  apply Rltb_false in Hx0, Hy0, Hyr, Hxr.
  assert (F0 : floorZ 0 = 0%Z) by (apply floorZ_unique; lra).
  assert (Fx : floorZ (IZR xr) = xr) by (apply floorZ_unique; lra).
  assert (Fy : floorZ (IZR yr) = yr) by (apply floorZ_unique; lra).
  pose proof (floorZ_le 0 x Hx0). pose proof (floorZ_le x (IZR xr) Hxr).
  pose proof (floorZ_le 0 y Hy0). pose proof (floorZ_le y (IZR yr) Hyr).
  lia.
Qed.

Lemma affine_gather_bounds (xr yr suplen : Z) (x y : R) (i j : Z) :
  (1 <= xr)%Z -> (1 <= yr)%Z -> (0 < suplen)%Z ->
  affine_outside xr yr x y = false ->
  (support_from suplen <= i <= support_to suplen)%Z ->
  (support_from suplen <= j <= support_to suplen)%Z ->
  (0 <= wrap_index yr (support_to suplen) (floorZ y) i * xr
        + wrap_index xr (support_to suplen) (floorZ x) j < xr * yr)%Z.
Proof.
  intros Hxr Hyr Hs Hin Hi Hj.
  destruct (support_bounds suplen Hs) as [Hst Hsf].
  destruct (affine_inside_floor xr yr x y Hin) as [Hfx Hfy].
  assert (Hii : (0 <= wrap_index yr (support_to suplen) (floorZ y) i < yr)%Z)
    by (apply wrap_index_range; nia).
  assert (Hjj : (0 <= wrap_index xr (support_to suplen) (floorZ x) j < xr)%Z)
    by (apply wrap_index_range; nia).
  nia.
Qed.



(** ** [affine]: the gathered neighbourhood is written in full *)

Lemma support_span (suplen : Z) :
  (0 < suplen)%Z -> (support_to suplen + 1 - support_from suplen = suplen)%Z.
Proof.
  intros H. unfold support_to, support_from.
  rewrite !Z.quot_div_nonneg by lia.
  pose proof (Z.div_mod suplen 2 ltac:(lia)) as H1.
  pose proof (Z.mod_pos_bound suplen 2 ltac:(lia)) as H2.
  pose proof (Z.div_mod (suplen - 1) 2 ltac:(lia)) as H3.
  pose proof (Z.mod_pos_bound (suplen - 1) 2 ltac:(lia)) as H4.
  lia.
Qed.

Lemma gather_written_step (sf st suplen : Z) (v : Z -> Z -> R) (i j : Z)
    (coeff : list R) :
  (0 < suplen)%Z -> (st + 1 - sf = suplen)%Z ->
  (sf <= i <= st)%Z -> (sf <= j <= st)%Z ->
  gather_written sf st suplen v i j coeff ->
  gather_written sf st suplen v i (j + 1)
    (array_set coeff ((i - sf) * suplen + j - sf) (v i j)).
Proof.
  intros Hs Hspan Hi Hj [Hlen Hd]. split.
  - rewrite array_set_length. exact Hlen.
  - intros i' j' Hi' Hj' Hbefore.
    destruct (Z.eq_dec ((i - sf) * suplen + j - sf)
                       ((i' - sf) * suplen + j' - sf)) as [Heq | Hne].
    + assert (i' = i) by nia. assert (j' = j) by nia. subst i' j'.
      apply array_get_set_same. rewrite Hlen. nia.
    + rewrite array_get_set_other by exact Hne.
      apply Hd; try assumption.
      destruct Hbefore as [Hlt | [-> Hlt]]; [left; exact Hlt |].
      right. split; [reflexivity |].
      destruct (Z.eq_dec j' j) as [-> | Hj'j]; [congruence | lia].
Qed.

Lemma gather_written_row (sf st suplen : Z) (v : Z -> Z -> R) (i : Z)
    (coeff : list R) :
  (0 < suplen)%Z -> (st + 1 - sf = suplen)%Z ->
  (sf <= i <= st)%Z ->
  gather_written sf st suplen v i sf coeff ->
  gather_written sf st suplen v (i + 1) sf
    (for_loop sf (st + 1)
       (fun j t => array_set t ((i - sf) * suplen + j - sf) (v i j)) coeff).
Proof.
  intros Hs Hspan Hi Hd.
  assert (Hend : gather_written sf st suplen v i (Z.max sf (st + 1))
            (for_loop sf (st + 1)
               (fun j t => array_set t ((i - sf) * suplen + j - sf) (v i j))
               coeff)).
  { apply (for_loop_ind (fun j t => gather_written sf st suplen v i j t)).
    - exact Hd.
    - intros k t Hk Ht. apply gather_written_step; try assumption. lia. }
  destruct Hend as [Hlen Hall]. split; [exact Hlen |].
  intros i' j' Hi' Hj' Hbefore. apply Hall; try assumption. lia.
Qed.

Lemma gather_written_all (sf st suplen : Z) (v : Z -> Z -> R) (coeff : list R) :
  (0 < suplen)%Z -> (st + 1 - sf = suplen)%Z ->
  length coeff = Z.to_nat (suplen * suplen) ->
  gather_written sf st suplen v (st + 1) sf
    (for_loop sf (st + 1)
       (fun i t => for_loop sf (st + 1)
                     (fun j u => array_set u ((i - sf) * suplen + j - sf)
                                   (v i j)) t) coeff).
Proof.
  intros Hs Hspan Hlen.
  assert (Hend : gather_written sf st suplen v (Z.max sf (st + 1)) sf
            (for_loop sf (st + 1)
               (fun i t => for_loop sf (st + 1)
                             (fun j u => array_set u
                                           ((i - sf) * suplen + j - sf)
                                           (v i j)) t) coeff)).
  { apply (for_loop_ind (fun i t => gather_written sf st suplen v i sf t)).
    - split; [exact Hlen | intros; lia].
    - intros k t Hk Ht. apply gather_written_row; try assumption. lia. }
  rewrite Z.max_r in Hend by lia. exact Hend.
Qed.

(** ** [affine]: what each destination pixel receives (C4) *)

Lemma affine_written_step (W H : Z) (v : Z -> Z -> R) (i j : Z) (d : list R) :
  (0 <= i < W)%Z -> (0 <= j < H)%Z ->
  affine_written W H v i j d ->
  affine_written W H v i (j + 1) (array_set d (i + W * j) (v i j)).
Proof.
  intros Hi Hj [Hlen Hd]. split.
  - rewrite array_set_length. exact Hlen.
  - intros i' j' Hi' Hj' Hbefore.
    destruct (Z.eq_dec (i + W * j) (i' + W * j')) as [Heq | Hne].
    + assert (j' = j) by nia. assert (i' = i) by nia. subst i' j'.
      apply array_get_set_same. rewrite Hlen. nia.
    + rewrite array_get_set_other by exact Hne.
      apply Hd; try assumption.
      destruct Hbefore as [Hlt | [-> Hlt]]; [left; exact Hlt |].
      right. split; [reflexivity |].
      destruct (Z.eq_dec j' j) as [-> | Hj'j]; [congruence | lia].
Qed.

Lemma affine_written_column (W H : Z) (v : Z -> Z -> R) (i : Z) (d : list R) :
  (0 <= i < W)%Z ->
  affine_written W H v i 0 d ->
  affine_written W H v (i + 1) 0
    (for_loop 0 H (fun newj t => array_set t (i + W * newj) (v i newj)) d).
Proof.
  intros Hi Hd.
  assert (Hend : affine_written W H v i (Z.max 0 H)
            (for_loop 0 H (fun newj t => array_set t (i + W * newj) (v i newj)) d)).
  { apply (for_loop_ind (fun j t => affine_written W H v i j t)).
    - exact Hd.
    - intros k t Hk Ht. apply affine_written_step; [exact Hi | exact Hk | exact Ht]. }
  destruct Hend as [Hlen Hall]. split; [exact Hlen |].
  intros i' j' Hi' Hj' Hbefore. apply Hall; try assumption. lia.
Qed.

Lemma affine_written_all (W H : Z) (v : Z -> Z -> R) (d : list R) :
  length d = Z.to_nat (W * H) ->
  forall newi newj, (0 <= newi < W)%Z -> (0 <= newj < H)%Z ->
  array_get
    (for_loop 0 W
       (fun i t => for_loop 0 H
                     (fun j u => array_set u (i + W * j) (v i j)) t) d)
    (newi + W * newj) = v newi newj.
Proof.
  intros Hlen newi newj Hi Hj.
  assert (Hend : affine_written W H v (Z.max 0 W) 0
            (for_loop 0 W
               (fun i t => for_loop 0 H
                             (fun j u => array_set u (i + W * j) (v i j)) t) d)).
  { apply (for_loop_ind (fun i t => affine_written W H v i 0 t)).
    - split; [exact Hlen | intros; lia].
    - intros k t Hk Ht. apply affine_written_column; assumption. }
  destruct Hend as [_ Hall]. apply Hall; try assumption. lia.
Qed.

Lemma affine_outside_true (xr yr : Z) (x y : R) :
  affine_outside xr yr x y = true
  <-> (y > IZR yr \/ x > IZR xr \/ y < 0 \/ x < 0).
Proof.
  unfold affine_outside, Rgtb. rewrite !orb_true_iff, !Rltb_true.
  unfold Rgt. tauto.
Qed.

Lemma affine_pixel_vset {T : Type} `{GwyInterpolation T}
    (xr yr suplen : Z) (cdata : list R) (invtrans : matrix) (interp : T)
    (fill_value : R) (newi newj : Z) :
  let c := affine_coord invtrans newi newj in
  let px := affine_pixel xr yr suplen cdata invtrans interp
              fill_value newi newj in
  fst px = affine_outside xr yr (fst c) (snd c) /\
  (fst px = true -> snd px = fill_value).
Proof.
  intros c px. subst c px. unfold affine_pixel.
  destruct (affine_coord invtrans newi newj) as [x y]. simpl.
  destruct (affine_outside xr yr x y); simpl; split; congruence.
Qed.

Lemma affine_get_val {T : Type} `{GwyInterpolation T}
    (source dest : GwyDataField) (invtrans : matrix) (interp : T)
    (fill_value : R) (newi newj : Z) :
  (0 < gwy_interpolation_get_support_size interp)%Z ->
  length (data dest) = Z.to_nat (xres dest * yres dest) ->
  (0 <= newi < xres dest)%Z -> (0 <= newj < yres dest)%Z ->
  gwy_data_field_get_val (affine source dest invtrans interp fill_value)
    newi newj
  = snd (affine_pixel (xres source) (yres source)
           (gwy_interpolation_get_support_size interp)
           (affine_cdata source interp) invtrans interp fill_value
           newi newj).
Proof.
  intros Hs Hlen Hi Hj. unfold affine.
  destruct (Z.gtb_spec (gwy_interpolation_get_support_size interp) 0) as [_ | Hn];
    [| lia].
  unfold gwy_data_field_get_val. cbn [xres yres data].
  destruct (Z.leb_spec 0 newi); [| lia].
  destruct (Z.ltb_spec newi (xres dest)); [| lia].
  destruct (Z.leb_spec 0 newj); [| lia].
  destruct (Z.ltb_spec newj (yres dest)); [| lia].
  cbn [andb].
  apply (affine_written_all (xres dest) (yres dest)
           (fun i j => snd (affine_pixel (xres source) (yres source)
                              (gwy_interpolation_get_support_size interp)
                              (affine_cdata source interp) invtrans interp
                              fill_value i j)));
    assumption.
Qed.

(** What an in-domain pixel receives: the value of the kernel on the
    gathered neighbourhood, at the fractional parts of the coordinate. *)
Lemma affine_pixel_inside {T : Type} `{GwyInterpolation T}
    (xr yr suplen : Z) (cdata : list R) (invtrans : matrix) (interp : T)
    (fill_value : R) (newi newj : Z) :
  let x := fst (affine_coord invtrans newi newj) in
  let y := snd (affine_coord invtrans newi newj) in
  affine_outside xr yr x y = false ->
  snd (affine_pixel xr yr suplen cdata invtrans interp fill_value newi newj)
  = gwy_interpolation_interpolate_2d (x - IZR (floorZ x)) (y - IZR (floorZ y))
      suplen (affine_gather xr yr suplen cdata (floorZ y) (floorZ x)) interp.
Proof.
  intros x y. subst x y. unfold affine_pixel.
  destruct (affine_coord invtrans newi newj) as [x y]. cbn [fst snd].
  intros ->. reflexivity.
Qed.

(** Every entry of the gathered neighbourhood is a sample of the grid, read
    at the indices that the wrap and the mirror fold give. *)
Lemma affine_gather_entry (xr yr suplen : Z) (cdata : list R)
    (oldi oldj i j : Z) :
  (0 < suplen)%Z ->
  (support_from suplen <= i <= support_to suplen)%Z ->
  (support_from suplen <= j <= support_to suplen)%Z ->
  array_get (affine_gather xr yr suplen cdata oldi oldj)
    ((i - support_from suplen) * suplen + j - support_from suplen)
  = array_get cdata
      (wrap_index yr (support_to suplen) oldi i * xr
       + wrap_index xr (support_to suplen) oldj j).
Proof.
  intros Hs Hi Hj. unfold affine_gather.
  pose proof (support_span suplen Hs) as Hspan.
  destruct (gather_written_all (support_from suplen) (support_to suplen)
              suplen
              (fun i j => array_get cdata
                            (wrap_index yr (support_to suplen) oldi i * xr
                             + wrap_index xr (support_to suplen) oldj j))
              (repeat 0 (Z.to_nat (suplen * suplen))) Hs Hspan)
    as [_ Hall].
  { apply repeat_length. }
  apply Hall; try assumption. lia.
Qed.

(** C4, as amended: a destination pixel of the resampler is set to the fill
    value exactly when its mapped source coordinate [(x, y)] has [x < 0],
    [y < 0], [x > W] or [y > H], that is when it lies outside the closed
    rectangle [0,W] x [0,H]; this is the only case in which the fill value is
    substituted ([vset]), for every kernel.  Every other pixel, those with
    [x = W] or [y = H] included, receives the value of the kernel at the
    fractional parts of [(x, y)] on the neighbourhood gathered around
    [(floor x, floor y)], each entry of which is the sample of the grid at
    the indices given by the wrap and the mirror fold. *)
Theorem affine_fill_value {T : Type} `{GwyInterpolation T}
    (source dest : GwyDataField) (invtrans : matrix) (interp : T)
    (fill_value : R) (newi newj : Z) :
  (0 < gwy_interpolation_get_support_size interp)%Z ->
  length (data dest) = Z.to_nat (xres dest * yres dest) ->
  (0 <= newi < xres dest)%Z -> (0 <= newj < yres dest)%Z ->
  let x := fst (affine_coord invtrans newi newj) in
  let y := snd (affine_coord invtrans newi newj) in
  let suplen := gwy_interpolation_get_support_size interp in
  let cdata := affine_cdata source interp in
  let px := affine_pixel (xres source) (yres source) suplen cdata invtrans
              interp fill_value newi newj in
  let v := gwy_data_field_get_val
             (affine source dest invtrans interp fill_value) newi newj in
  let coeff := affine_gather (xres source) (yres source) suplen cdata
                 (floorZ y) (floorZ x) in
  let outside := x < 0 \/ y < 0 \/ x > IZR (xres source)
                 \/ y > IZR (yres source) in
  v = snd px /\
  (fst px = true <-> outside) /\
  (outside -> v = fill_value) /\
  (~ outside ->
   v = gwy_interpolation_interpolate_2d
         (x - IZR (floorZ x)) (y - IZR (floorZ y)) suplen coeff interp) /\
  (forall i j,
      (support_from suplen <= i <= support_to suplen)%Z ->
      (support_from suplen <= j <= support_to suplen)%Z ->
      array_get coeff
        ((i - support_from suplen) * suplen + j - support_from suplen)
      = array_get cdata
          (wrap_index (yres source) (support_to suplen) (floorZ y) i
           * xres source
           + wrap_index (xres source) (support_to suplen) (floorZ x) j)).
Proof.
  intros Hs Hlen Hi Hj x y suplen cdata px v coeff outside.
  assert (Hval : v = snd px)
    by (apply (affine_get_val source dest invtrans interp fill_value
                 newi newj Hs Hlen Hi Hj)).
  destruct (affine_pixel_vset (xres source) (yres source) suplen cdata
              invtrans interp fill_value newi newj) as [Hflag Hfill].
  fold px in Hflag, Hfill.
  assert (Hiff : fst px = true <-> outside).
  { subst outside x y. rewrite Hflag, affine_outside_true. tauto. }
  refine (conj Hval (conj Hiff (conj _ (conj _ _)))).
  - intros Hout. rewrite Hval. apply Hfill, Hiff, Hout.
  - intros Hin. rewrite Hval.
    assert (Hfalse : fst px = false).
    { destruct (fst px); [| reflexivity].
      exfalso. apply Hin, Hiff. reflexivity. }
    subst px x y coeff. apply affine_pixel_inside.
    rewrite <- Hflag. exact Hfalse.
  - intros i j Hi' Hj'. subst coeff.
    apply affine_gather_entry; assumption.
Qed.

Lemma affine_coord_shift_by_2 : affine_coord shift_by_2 (-1) 0 = (1, 0)
                                /\ affine_coord shift_by_2 0 0 = (2, 0)
                                /\ affine_coord shift_by_2 1 0 = (3, 0).
Proof.
  unfold affine_coord, affine_shift, shift_by_2; simpl.
  repeat split; f_equal; lra.
Qed.

Lemma affine_fill_value_witness :
  let source := image_2x2 in
  let dest := gwy_data_field_new_filled 2 2 2 2 0 in
  let x := fst (affine_coord shift_by_2 1 0) in
  let y := snd (affine_coord shift_by_2 1 0) in
  let cdata := @affine_cdata unit one_sample_kernel source tt in
  let px := @affine_pixel unit one_sample_kernel 2 2 1 cdata
              shift_by_2 tt 0 1 0 in
  let v := gwy_data_field_get_val
             (@affine unit one_sample_kernel source dest shift_by_2 tt 0)
             1 0 in
  let coeff := affine_gather 2 2 1 cdata (floorZ y) (floorZ x) in
  let outside := x < 0 \/ y < 0 \/ x > 2 \/ y > 2 in
  v = snd px /\
  (fst px = true <-> outside) /\
  (outside -> v = 0) /\
  (~ outside ->
   v = @gwy_interpolation_interpolate_2d unit one_sample_kernel
         (x - IZR (floorZ x)) (y - IZR (floorZ y)) 1 coeff tt) /\
  (forall i j,
      (support_from 1 <= i <= support_to 1)%Z ->
      (support_from 1 <= j <= support_to 1)%Z ->
      array_get coeff ((i - support_from 1) * 1 + j - support_from 1)
      = array_get cdata
          (wrap_index 2 (support_to 1) (floorZ y) i * 2
           + wrap_index 2 (support_to 1) (floorZ x) j)).
Proof.
  apply (@affine_fill_value unit one_sample_kernel image_2x2
           (gwy_data_field_new_filled 2 2 2 2 0) shift_by_2 tt 0 1 0);
    simpl; try lia; reflexivity.
Defined.

(** The fold at the far edge: column 2 of a grid of 2 columns is read at
    column 1. *)
Lemma affine_far_edge_value :
  gwy_data_field_get_val
    (@affine unit one_sample_kernel image_2x2
       (gwy_data_field_new_filled 2 2 2 2 0) shift_by_2 tt 0) 0 0
  = gwy_data_field_get_val image_2x2 1 0.
Proof.
  rewrite (@affine_get_val unit one_sample_kernel) by (simpl; lia || reflexivity).
  destruct affine_coord_shift_by_2 as (_ & H0 & _).
  rewrite (@affine_pixel_inside unit one_sample_kernel);
    rewrite H0; cbn [fst snd].
  - assert (F2 : floorZ 2 = 2%Z) by (apply floorZ_unique; lra).
    assert (F0 : floorZ 0 = 0%Z) by (apply floorZ_unique; lra).
    rewrite F2, F0. reflexivity.
  - unfold affine_outside, Rgtb. cbn [xres yres image_2x2].
    rewrite !(proj2 (Rltb_false _ _)) by lra. reflexivity.
Qed.

(** C4, as the specification states it, fails: with the inverse map
    [shift_by_2] and a source of resolution 2 x 2, the destination pixel
    (0, 0) maps to [(2, 0)], which is outside [0,2) x [0,2), and yet the
    resampler, whatever the kernel, does not substitute the fill value: with
    the one-sample kernel and the fill value 0 that pixel receives the
    sample 2 of (column 1, row 0), not the fill value. *)
Lemma affine_far_edge_not_filled :
  affine_coord shift_by_2 0 0 = (2, 0) /\
  spec_outside 2 2 2 0 /\
  (forall (T : Type) (K : GwyInterpolation T) (suplen : Z) (cdata : list R)
          (interp : T) (fill_value : R),
      fst (affine_pixel 2 2 suplen cdata shift_by_2 interp fill_value 0 0)
      = false) /\
  gwy_data_field_get_val
    (@affine unit one_sample_kernel image_2x2
       (gwy_data_field_new_filled 2 2 2 2 0) shift_by_2 tt 0) 0 0 = 2 /\
  gwy_data_field_get_val
    (@affine unit one_sample_kernel image_2x2
       (gwy_data_field_new_filled 2 2 2 2 0) shift_by_2 tt 0) 0 0 <> 0.
Proof.
  destruct affine_coord_shift_by_2 as (_ & H0 & _).
  assert (Hv : gwy_data_field_get_val
                 (@affine unit one_sample_kernel image_2x2
                    (gwy_data_field_new_filled 2 2 2 2 0) shift_by_2 tt 0)
                 0 0 = 2).
  { rewrite affine_far_edge_value. unfold gwy_data_field_get_val, array_get.
    simpl. reflexivity. }
  refine (conj H0 (conj _ (conj _ (conj Hv _)))).
  - unfold spec_outside. lra.
  - intros T K suplen cdata interp fill_value.
    destruct (affine_pixel_vset 2 2 suplen cdata shift_by_2 interp fill_value
                0 0) as [-> _].
    rewrite H0. simpl. unfold affine_outside, Rgtb.
    rewrite !(proj2 (Rltb_false _ _)) by lra. reflexivity.
  - rewrite Hv. lra.
Qed.

(** ** [affine]: the half-pixel correction (C2) *)

(** The resampler applies its inverse map in the form
    [x' = a*x + c*y + tx; y' = b*x + d*y + ty] with [a = invtrans[0]],
    [b = invtrans[1]], [c = invtrans[2]], [d = invtrans[3]]. *)
Lemma affine_coord_map (m : matrix) (newi newj : Z) :
  affine_coord m newi newj
  = (e0 m * IZR newi + e2 m * IZR newj + fst (affine_shift m),
     e1 m * IZR newi + e3 m * IZR newj + snd (affine_shift m)).
Proof. reflexivity. Qed.

(** The correction [0.5*(a+c-1)], [0.5*(b+d-1)] is the one that maps the
    centre of a destination pixel to the centre-based coordinate of its
    image: [x + 0.5] is the map applied to [(i + 0.5, j + 0.5)]. *)
Lemma spec_half_pixel_centres (a b c d tx ty i j : R) :
  a * i + c * j + (tx + fst (spec_half_pixel a b c d)) + 0.5
  = a * (i + 0.5) + c * (j + 0.5) + tx /\
  b * i + d * j + (ty + snd (spec_half_pixel a b c d)) + 0.5
  = b * (i + 0.5) + d * (j + 0.5) + ty.
Proof. unfold spec_half_pixel; simpl. split; lra. Qed.

(** The correction of the code differs from it by half the difference of the
    two off-diagonal coefficients. *)
Lemma affine_shift_vs_spec (m : matrix) :
  fst (affine_shift m)
  = e4 m + fst (spec_half_pixel (e0 m) (e1 m) (e2 m) (e3 m))
    + 0.5 * (e1 m - e2 m) /\
  snd (affine_shift m)
  = e5 m + snd (spec_half_pixel (e0 m) (e1 m) (e2 m) (e3 m))
    + 0.5 * (e2 m - e1 m).
Proof. unfold affine_shift, spec_half_pixel; simpl. split; lra. Qed.

(** C2, on the code: for the inverse map that [skew_process] passes to the
    resampler with [Xskew = 30] and [Yskew = 0] (a = 1, b = 0,
    c = -tan 30, d = 1), the code adds [0.5*(a+b-1) = 0] to [tx] and
    [0.5*(c+d-1) = -0.5*tan 30] to [ty], whereas [0.5*(a+c-1)] and
    [0.5*(b+d-1)] are [-0.5*tan 30] and [0]. *)
Theorem affine_shift_skew_30_0 :
  let m := iTrans (skew_canvas image_2x2 30 0) in
  let t := tan (deg2rad 30) in
  0 < t /\
  (e0 m, e1 m, e2 m, e3 m) = (1, 0, - t, 1) /\
  fst (affine_shift m) - e4 m = 0 /\
  snd (affine_shift m) - e5 m = - 0.5 * t /\
  spec_half_pixel (e0 m) (e1 m) (e2 m) (e3 m) = (- 0.5 * t, 0).
Proof.
  intros m t. subst m.
  destruct (skew_canvas_Trans image_2x2 30 0) as [_ ->].
  unfold invert_matrix, matrix_det, skew_Trans, affine_shift, spec_half_pixel.
  cbn [e0 e1 e2 e3 e4 e5 fst snd].
  rewrite deg2rad_0, tan_0. fold t.
  replace (1 * 1 - 0 * t) with 1 by ring.
  rewrite !Rdiv_1_r, Ropp_0.
  split; [exact tan_30_pos |].
  split; [reflexivity |].
  split; [lra |].
  split; [lra |].
  f_equal; lra.
Qed.

(** ** The whole functions *)

(** [skew_process] stores the parameters of [skew_canvas] and resamples the
    image with the inverse matrix, the bilinear kernel and the background
    fill. *)
Lemma skew_process_canvas {T : Type} `{GwyInterpolation T}
    (image : GwyDataField) (Xskew Yskew : R) :
  let m := skew_canvas image Xskew Yskew in
  skew_process image Xskew Yskew
  = (m, affine image
          (gwy_data_field_new_filled (newxres m) (newyres m)
             (new_xreal m) (new_yreal m) (background_fill m))
          (iTrans m) GWY_INTERPOLATION_BILINEAR (background_fill m)).
Proof. reflexivity. Qed.

(** With no skew the canvas keeps the resolution of the image. *)
Lemma skew_canvas_zero (image : GwyDataField) :
  (0 <= xres image)%Z -> (0 <= yres image)%Z ->
  newxres (skew_canvas image 0 0) = xres image /\
  newyres (skew_canvas image 0 0) = yres image.
Proof.
  intros HW HH.
  destruct (skew_canvas_res image 0 0 HW HH) as [-> ->].
  rewrite deg2rad_0, tan_0, Rabs_R0, !Rmult_0_l, !Rplus_0_r.
  split; apply GWY_ROUND_IZR.
Qed.

(** The value and the pixel that [peak_find] reports are those of the scan
    from the pixel nearest to [point]; the selection is rewritten exactly when
    the peak is not that pixel. *)
Lemma peak_find_scan (rtoj rtoi jtor itor : GwyDataField -> R -> R)
    (dfield : GwyDataField) (point : R * R) (rpx : Z) :
  let col := gint_of_gdouble (rtoj dfield (fst point)) in
  let row := gint_of_gdouble (rtoi dfield (snd point)) in
  let s := peak_scan dfield col row rpx in
  let found := peak_find rtoj rtoi jtor itor dfield point rpx in
  p_z found = temp_z s /\
  p_x found = jtor dfield (IZR (temp_i s)) + xoffset dfield /\
  p_y found = itor dfield (IZR (temp_j s)) + yoffset dfield /\
  (moved found = None <-> (temp_i s, temp_j s) = (col, row)).
Proof.
  intros col row s found. subst found. unfold peak_find. fold col row s.
  cbn [p_x p_y p_z moved]. repeat split; try reflexivity.
  - intros Hm.
    destruct (Z.eqb_spec (row - temp_j s) 0), (Z.eqb_spec (col - temp_i s) 0);
      simpl in Hm; try discriminate.
    f_equal; lia.
  - intros Heq. injection Heq as Hi Hj. rewrite Hi, Hj, !Z.sub_diag.
    reflexivity.
Qed.

(** On a flat spectrum every pixel ties: the approximate pixel is kept,
    although the scan meets other pixels of the same value first. *)
Lemma peak_scan_flat_3x3 :
  peak_scan flat_3x3 1 1 1 = Peak 1 1 0 [(1, 1); (1, 0); (0, 1); (0, 0)]%Z.
Proof.
  unfold peak_scan.
  eval_Z (peak_low 1 1). eval_Z (peak_high 1 1 (xres flat_3x3)).
  eval_Z (peak_high 1 1 (yres flat_3x3)).
  run_loops. run_peak. eval_samples. reflexivity.
Qed.

(** The neighbourhood gathered for an in-domain coordinate depends only on
    the [xres*yres] samples of the coefficient grid: two arrays that agree on
    the indices [0 .. xres*yres-1] give the same [coeff]. *)
Lemma affine_gather_reads_grid (xr yr suplen : Z) (c1 c2 : list R) (x y : R) :
  (1 <= xr)%Z -> (1 <= yr)%Z -> (0 < suplen)%Z ->
  affine_outside xr yr x y = false ->
  (forall k, (0 <= k < xr * yr)%Z -> array_get c1 k = array_get c2 k) ->
  affine_gather xr yr suplen c1 (floorZ y) (floorZ x)
  = affine_gather xr yr suplen c2 (floorZ y) (floorZ x).
Proof.
  intros Hxr Hyr Hs Hin Hagree. unfold affine_gather.
  apply for_loop_ext. intros i coeff Hi.
  apply for_loop_ext. intros j coeff' Hj.
  f_equal. apply Hagree.
  apply (affine_gather_bounds xr yr suplen x y i j); try assumption; lia.
Qed.

(** * Further properties of the code *)

(** ** Matrix helpers *)

Lemma invert_matrix_right_any (m : matrix) (p : vec3) :
  matrix_det m <> 0 ->
  mult_3matrix m (mult_3matrix (invert_matrix m) p) = p.
Proof.
  intros HD. destruct m as [a b c d tx ty], p as [x y w].
  unfold invert_matrix, mult_3matrix, matrix_det in *; simpl in *.
  f_equal; field; exact HD.
Qed.

(** X1: for a matrix of non-zero determinant, [invert_matrix] gives a
    two-sided inverse for [mult_3matrix]: applying the matrix and its inverse
    to a homogeneous point, in either order, gives the point back. *)
Theorem invert_matrix_two_sided (m : matrix) (p : vec3) :
  matrix_det m <> 0 ->
  mult_3matrix (invert_matrix m) (mult_3matrix m p) = p /\
  mult_3matrix m (mult_3matrix (invert_matrix m) p) = p.
Proof.
  intros HD. split.
  - apply invert_matrix_left, HD.
  - apply invert_matrix_right_any, HD.
Qed.

Lemma invert_matrix_two_sided_witness :
  mult_3matrix (invert_matrix shift_by_2)
    (mult_3matrix shift_by_2 (Vec3 3 4 1)) = Vec3 3 4 1 /\
  mult_3matrix shift_by_2
    (mult_3matrix (invert_matrix shift_by_2) (Vec3 3 4 1)) = Vec3 3 4 1.
Proof.
  apply invert_matrix_two_sided. unfold matrix_det, shift_by_2; simpl. lra.
Defined.

(** X2: the determinant of the inverse is the inverse of the determinant,
    and inverting twice gives the matrix back (linear part and
    translation). *)
Theorem invert_matrix_involutive (m : matrix) :
  matrix_det m <> 0 ->
  matrix_det (invert_matrix m) = / matrix_det m /\
  invert_matrix (invert_matrix m) = m.
Proof.
  intros HD.
  assert (Hdet : matrix_det (invert_matrix m) = / matrix_det m).
  { destruct m as [a b c d tx ty].
    unfold invert_matrix, matrix_det in *; simpl in *. field. exact HD. }
  split; [exact Hdet |].
  destruct m as [a b c d tx ty]. clear Hdet.
  unfold invert_matrix, matrix_det in *; simpl in *.
  f_equal; field; exact HD.
Qed.

Lemma invert_matrix_involutive_witness :
  matrix_det (invert_matrix shift_by_2) = / matrix_det shift_by_2 /\
  invert_matrix (invert_matrix shift_by_2) = shift_by_2.
Proof.
  apply invert_matrix_involutive. unfold matrix_det, shift_by_2; simpl. lra.
Defined.

(** ** The shear and its canvas *)

Lemma tan_PI6_sqr : tan (PI / 6) * tan (PI / 6) = 1 / 3 /\ 0 < tan (PI / 6).
Proof.
  rewrite tan_PI6.
  assert (H3 : 0 < sqrt 3) by (apply sqrt_lt_R0; lra).
  assert (Hs : sqrt 3 * sqrt 3 = 3) by (apply sqrt_sqrt; lra).
  split.
  - replace (1 / sqrt 3 * (1 / sqrt 3)) with (1 / (sqrt 3 * sqrt 3))
      by (field; lra).
    rewrite Hs. reflexivity.
  - apply Rdiv_lt_0_compat; lra.
Qed.

Lemma skew_tan_bound (a : R) :
  Rabs a <= 30 ->
  - tan (PI / 6) <= tan (deg2rad a) <= tan (PI / 6).
Proof.
  intros H. apply deg2rad_bounds in H. pose proof PI_RGT_0 as HPI.
  rewrite <- tan_neg. split; apply tan_le; lra.
Qed.

(** X3: for skew angles in [-30, 30] degrees the determinant of the forward
    matrix is [1 - tan(Yskew)*tan(Xskew)] and lies between 2/3 and 4/3: the
    matrix is never close to singular, and its determinant is 1 only when
    one of the two tangents is 0. *)
Theorem skew_Trans_det_range (Xskew Yskew tx ty : R) :
  -30 <= Xskew <= 30 ->
  -30 <= Yskew <= 30 ->
  matrix_det (skew_Trans Xskew Yskew tx ty)
  = 1 - tan (deg2rad Yskew) * tan (deg2rad Xskew) /\
  2 / 3 <= matrix_det (skew_Trans Xskew Yskew tx ty) <= 4 / 3 /\
  (matrix_det (skew_Trans Xskew Yskew tx ty) = 1
   <-> tan (deg2rad Xskew) = 0 \/ tan (deg2rad Yskew) = 0).
Proof.
  intros HX HY. rewrite skew_Trans_det.
  assert (HtX := skew_tan_bound Xskew). assert (HtY := skew_tan_bound Yskew).
  destruct tan_PI6_sqr as [Hc2 Hc].
  specialize (HtX ltac:(apply Rabs_le; lra)).
  specialize (HtY ltac:(apply Rabs_le; lra)).
  set (c := tan (PI / 6)) in *.
  set (u := tan (deg2rad Xskew)) in *. set (v := tan (deg2rad Yskew)) in *.
  split; [reflexivity |]. split.
  - split; nra.
  - split.
    + intros H. assert (Hz : v * u = 0) by lra.
      apply Rmult_integral in Hz. tauto.
    + intros [H | H]; rewrite H; ring.
Qed.

Lemma skew_Trans_det_range_witness :
  matrix_det (skew_Trans 30 (-30) 0 0)
  = 1 - tan (deg2rad (-30)) * tan (deg2rad 30) /\
  2 / 3 <= matrix_det (skew_Trans 30 (-30) 0 0) <= 4 / 3 /\
  (matrix_det (skew_Trans 30 (-30) 0 0) = 1
   <-> tan (deg2rad 30) = 0 \/ tan (deg2rad (-30)) = 0).
Proof. apply skew_Trans_det_range; lra. Defined.

(** X4: for an image of resolution [W] x [H] the canvas computed by
    [skew_process] is [round(W + |tan Xskew|*H)] pixels wide and
    [round(H + |tan Yskew|*W)] pixels high: each axis depends on the skew
    angle of its own name only. *)
Theorem skew_canvas_resolution (image : GwyDataField) (Xskew Yskew : R) :
  (0 <= xres image)%Z -> (0 <= yres image)%Z ->
  newxres (skew_canvas image Xskew Yskew)
  = GWY_ROUND (IZR (xres image)
               + Rabs (tan (deg2rad Xskew)) * IZR (yres image)) /\
  newyres (skew_canvas image Xskew Yskew)
  = GWY_ROUND (IZR (yres image)
               + Rabs (tan (deg2rad Yskew)) * IZR (xres image)).
Proof. apply skew_canvas_res. Qed.

Lemma skew_canvas_resolution_witness :
  newxres (skew_canvas image_2x2 30 0)
  = GWY_ROUND (IZR (xres image_2x2)
               + Rabs (tan (deg2rad 30)) * IZR (yres image_2x2)) /\
  newyres (skew_canvas image_2x2 30 0)
  = GWY_ROUND (IZR (yres image_2x2)
               + Rabs (tan (deg2rad 0)) * IZR (xres image_2x2)).
Proof. apply skew_canvas_resolution; simpl; lia. Defined.

Lemma skew_bbox_low (Xskew Yskew W H : R) :
  0 <= W -> 0 <= H ->
  lowX (skew_bbox Xskew Yskew W H) = Rmin 0 (tan (deg2rad Xskew) * H) /\
  lowY (skew_bbox Xskew Yskew W H) = Rmin 0 (tan (deg2rad Yskew) * W).
Proof.
  intros HW HH. unfold skew_bbox, skew_corners, mult_3matrix, skew_Trans.
  simpl. rewrite !lower_Rmin.
  set (t := tan (deg2rad Xskew)). set (v := tan (deg2rad Yskew)).
  replace (1 * 0 + t * 0 + 0 * 1) with 0 by ring.
  replace (1 * W + t * 0 + 0 * 1) with W by ring.
  replace (1 * W + t * H + 0 * 1) with (W + t * H) by ring.
  replace (1 * 0 + t * H + 0 * 1) with (t * H) by ring.
  replace (v * 0 + 1 * 0 + 0 * 1) with 0 by ring.
  replace (v * W + 1 * 0 + 0 * 1) with (v * W) by ring.
  replace (v * W + 1 * H + 0 * 1) with (H + v * W) by ring.
  replace (v * 0 + 1 * H + 0 * 1) with H by ring.
  generalize (t * H) (v * W). intros s s'.
  split; split_minmax; lra.
Qed.

(** X5: the translation of the forward matrix moves the sheared image into
    the canvas: every point [(x, y)] of the original rectangle
    [0,W] x [0,H] is mapped by [Trans] into the rectangle
    [0, W + |tan Xskew|*H] x [0, H + |tan Yskew|*W], the bounding box whose
    rounded size is the canvas resolution. *)
Theorem skew_image_fits_canvas (image : GwyDataField) (Xskew Yskew x y : R) :
  (0 <= xres image)%Z -> (0 <= yres image)%Z ->
  0 <= x <= IZR (xres image) ->
  0 <= y <= IZR (yres image) ->
  let q := mult_3matrix (Trans (skew_canvas image Xskew Yskew))
             (Vec3 x y 1) in
  0 <= p0 q <= IZR (xres image)
               + Rabs (tan (deg2rad Xskew)) * IZR (yres image) /\
  0 <= p1 q <= IZR (yres image)
               + Rabs (tan (deg2rad Yskew)) * IZR (xres image).
Proof.
  intros HW HH Hx Hy q. subst q. apply IZR_le in HW, HH.
  destruct (skew_canvas_Trans image Xskew Yskew) as [-> _].
  destruct (skew_bbox_low Xskew Yskew _ _ HW HH) as [-> ->].
  unfold mult_3matrix, skew_Trans. cbn [p0 p1 p2 e0 e1 e2 e3 e4 e5].
  set (t := tan (deg2rad Xskew)). set (v := tan (deg2rad Yskew)).
  set (W := IZR (xres image)) in *. set (H := IZR (yres image)) in *.
  assert (Hty : Rmin 0 (t * H) <= t * y <= Rmax 0 (t * H))
    by (unfold Rmin, Rmax;
        destruct (Rle_dec 0 (t * H)), (Rle_dec 0 t); nra).
  assert (Hvx : Rmin 0 (v * W) <= v * x <= Rmax 0 (v * W))
    by (unfold Rmin, Rmax;
        destruct (Rle_dec 0 (v * W)), (Rle_dec 0 v); nra).
  assert (HaX : Rabs t * H = Rabs (t * H))
    by (rewrite Rabs_mult, (Rabs_right H); lra).
  assert (HaY : Rabs v * W = Rabs (v * W))
    by (rewrite Rabs_mult, (Rabs_right W); lra).
  rewrite HaX, HaY.
  revert Hty Hvx. generalize (t * y) (v * x) (t * H) (v * W).
  intros a b s s' Ha Hb. split; split; split_minmax; lra.
Qed.

Lemma skew_image_fits_canvas_witness :
  let q := mult_3matrix (Trans (skew_canvas image_2x2 (-30) 20))
             (Vec3 2 1 1) in
  0 <= p0 q <= IZR (xres image_2x2)
               + Rabs (tan (deg2rad (-30))) * IZR (yres image_2x2) /\
  0 <= p1 q <= IZR (yres image_2x2)
               + Rabs (tan (deg2rad 20)) * IZR (xres image_2x2).
Proof. apply skew_image_fits_canvas; simpl; try lia; lra. Defined.

Lemma skew_canvas_real (image : GwyDataField) (Xskew Yskew : R) :
  let m := skew_canvas image Xskew Yskew in
  new_xreal m = xreal image * (IZR (newxres m) / IZR (xres image)) /\
  new_yreal m = yreal image * (IZR (newyres m) / IZR (yres image)).
Proof.
  unfold skew_canvas. destruct (gwy_data_field_get_min_max image).
  split; reflexivity.
Qed.

(** X6: with both skew angles 0 and an image of at least 1 x 1 pixels,
    [skew_process] changes nothing: the canvas keeps the resolution and the
    physical size of the image, and the forward and inverse matrices are
    the identity with no translation. *)
Theorem skew_canvas_identity (image : GwyDataField) :
  (1 <= xres image)%Z -> (1 <= yres image)%Z ->
  let m := skew_canvas image 0 0 in
  newxres m = xres image /\ newyres m = yres image /\
  new_xreal m = xreal image /\ new_yreal m = yreal image /\
  Trans m = Matrix 1 0 0 1 0 0 /\ iTrans m = Matrix 1 0 0 1 0 0.
Proof.
  intros HW HH m. subst m.
  destruct (skew_canvas_zero image) as [Hx Hy]; try lia.
  destruct (skew_canvas_real image 0 0) as [Hxr Hyr].
  destruct (skew_canvas_Trans image 0 0) as [HT HiT].
  assert (HWr : 1 <= IZR (xres image)) by (apply IZR_le in HW; exact HW).
  assert (HHr : 1 <= IZR (yres image)) by (apply IZR_le in HH; exact HH).
  destruct (skew_bbox_low 0 0 (IZR (xres image)) (IZR (yres image)))
    as [HlX HlY]; try lra.
  rewrite deg2rad_0, tan_0, Rmult_0_l in HlX, HlY.
  rewrite Rmin_left in HlX, HlY by lra.
  rewrite Hxr, Hyr, HT, HiT, Hx, Hy, HlX, HlY.
  unfold invert_matrix, matrix_det, skew_Trans.
  cbn [e0 e1 e2 e3 e4 e5]. rewrite deg2rad_0, tan_0.
  repeat split; try (field; lra); f_equal; field.
Qed.

Lemma skew_canvas_identity_witness :
  let m := skew_canvas image_2x2 0 0 in
  newxres m = xres image_2x2 /\ newyres m = yres image_2x2 /\
  new_xreal m = xreal image_2x2 /\ new_yreal m = yreal image_2x2 /\
  Trans m = Matrix 1 0 0 1 0 0 /\ iTrans m = Matrix 1 0 0 1 0 0.
Proof. apply skew_canvas_identity; simpl; lia. Defined.

(** X7: the physical size that [skew_create_output] sets on the output field
    from the stored resolution is the one [skew_process] gave the corrected
    image, and it keeps the pixel pitch of the original image along both
    axes. *)
Theorem skew_output_pixel_pitch (image : GwyDataField) (Xskew Yskew : R) :
  (1 <= xres image)%Z -> (1 <= yres image)%Z ->
  let m := skew_canvas image Xskew Yskew in
  skew_create_output_real image (newxres m) (newyres m)
  = (new_xreal m, new_yreal m) /\
  new_xreal m / IZR (newxres m) = xreal image / IZR (xres image) /\
  new_yreal m / IZR (newyres m) = yreal image / IZR (yres image).
Proof.
  intros HW HH m.
  destruct (skew_canvas_real image Xskew Yskew) as [Hxr Hyr].
  destruct (skew_canvas_res image Xskew Yskew) as [Hx Hy]; try lia.
  assert (Hn : (1 <= newxres m)%Z /\ (1 <= newyres m)%Z).
  { subst m. rewrite Hx, Hy.
    pose proof (Rabs_pos (tan (deg2rad Xskew))) as HtX.
    pose proof (Rabs_pos (tan (deg2rad Yskew))) as HtY.
    assert (1 <= IZR (xres image)) by (apply IZR_le in HW; exact HW).
    assert (1 <= IZR (yres image)) by (apply IZR_le in HH; exact HH).
    split; rewrite <- (GWY_ROUND_IZR 1); apply GWY_ROUND_le; nra. }
  destruct Hn as [Hnx Hny].
  assert (1 <= IZR (xres image)) by (apply IZR_le in HW; exact HW).
  assert (1 <= IZR (yres image)) by (apply IZR_le in HH; exact HH).
  assert (1 <= IZR (newxres m)) by (apply IZR_le in Hnx; exact Hnx).
  assert (1 <= IZR (newyres m)) by (apply IZR_le in Hny; exact Hny).
  fold m in Hxr, Hyr. rewrite Hxr, Hyr.
  unfold skew_create_output_real.
  split; [reflexivity |]. split; field; lra.
Qed.

Lemma skew_output_pixel_pitch_witness :
  let m := skew_canvas image_2x2 30 (-10) in
  skew_create_output_real image_2x2 (newxres m) (newyres m)
  = (new_xreal m, new_yreal m) /\
  new_xreal m / IZR (newxres m) = xreal image_2x2 / IZR (xres image_2x2) /\
  new_yreal m / IZR (newyres m) = yreal image_2x2 / IZR (yres image_2x2).
Proof. apply skew_output_pixel_pitch; simpl; lia. Defined.

(** *** The background fill *)

Lemma min_max_fold (vs : list R) (mn mx : R) :
  let r := fold_left (fun mm w => (Rmin (fst mm) w, Rmax (snd mm) w)) vs
             (mn, mx) in
  fst r <= mn /\ mx <= snd r /\
  (forall v, In v vs -> fst r <= v <= snd r) /\
  In (fst r) (mn :: vs) /\ In (snd r) (mx :: vs).
Proof.
  revert mn mx. induction vs as [| w vs IH]; intros mn mx.
  - simpl. refine (conj _ (conj _ (conj _ (conj _ _)))); try lra; auto.
    intros v [].
  - specialize (IH (Rmin mn w) (Rmax mx w)). cbv zeta in *.
    cbn [fold_left fst snd] in *.
    destruct IH as (H1 & H2 & H3 & H4 & H5).
    pose proof (Rmin_l mn w). pose proof (Rmin_r mn w).
    pose proof (Rmax_l mx w). pose proof (Rmax_r mx w).
    refine (conj _ (conj _ (conj _ (conj _ _)))).
    + lra.
    + lra.
    + intros v [<- | Hv]; [lra | apply H3, Hv].
    + destruct H4 as [H4 | H4]; [| right; right; exact H4].
      rewrite <- H4. unfold Rmin.
      destruct (Rle_dec mn w); [left | right; left]; reflexivity.
    + destruct H5 as [H5 | H5]; [| right; right; exact H5].
      rewrite <- H5. unfold Rmax.
      destruct (Rle_dec mx w); [right; left | left]; reflexivity.
Qed.

Lemma gwy_data_field_get_min_max_spec (f : GwyDataField) :
  data f <> [] ->
  let mm := gwy_data_field_get_min_max f in
  (forall v, In v (data f) -> fst mm <= v <= snd mm) /\
  In (fst mm) (data f) /\ In (snd mm) (data f).
Proof.
  intros Hne. unfold gwy_data_field_get_min_max.
  destruct (data f) as [| v vs]; [congruence |].
  destruct (min_max_fold vs v v) as (H1 & H2 & H3 & H4 & H5).
  cbv zeta. refine (conj _ (conj H4 H5)).
  intros u [<- | Hu]; [lra | apply H3, Hu].
Qed.

(** X8: for an image with at least one sample, the background fill computed
    by [skew_process] is never above a sample of the image, and it is
    strictly below every sample as soon as two samples differ: filled
    pixels can be told from data. *)
Theorem skew_background_below_data (image : GwyDataField) (Xskew Yskew : R) :
  data image <> [] ->
  let fill := background_fill (skew_canvas image Xskew Yskew) in
  (forall v, In v (data image) -> fill <= v) /\
  ((exists v w, In v (data image) /\ In w (data image) /\ v <> w) ->
   forall v, In v (data image) -> fill < v).
Proof.
  intros Hne fill. subst fill.
  destruct (gwy_data_field_get_min_max_spec image Hne) as (Hb & Hmin & Hmax).
  unfold skew_canvas.
  destruct (gwy_data_field_get_min_max image) as [mn mx].
  cbn [background_fill fst snd] in *.
  assert (Hmm : mn <= mx) by (apply Hb, Hmin).
  split.
  - intros v Hv. specialize (Hb v Hv). lra.
  - intros (v & w & Hv & Hw & Hvw) u Hu.
    pose proof (Hb v Hv). pose proof (Hb w Hw). pose proof (Hb u Hu).
    assert (mn < mx) by (destruct (Rtotal_order v w) as [|[|]]; lra).
    lra.
Qed.

Lemma skew_background_below_data_witness :
  let fill := background_fill (skew_canvas image_2x2 30 0) in
  (forall v, In v (data image_2x2) -> fill <= v) /\
  ((exists v w, In v (data image_2x2) /\ In w (data image_2x2) /\ v <> w) ->
   forall v, In v (data image_2x2) -> fill < v).
Proof. apply skew_background_below_data. simpl. discriminate. Defined.

(** ** The resampler *)

Lemma for_loop_set_length (lo hi : Z) (idx : Z -> Z) (val : Z -> list R -> R)
    (d : list R) :
  length (for_loop lo hi (fun k t => array_set t (idx k) (val k t)) d)
  = length d.
Proof.
  apply (for_loop_ind (fun _ t => length t = length d)).
  - reflexivity.
  - intros k t _ Ht. rewrite array_set_length. exact Ht.
Qed.

Lemma affine_shape {T : Type} `{GwyInterpolation T}
    (source dest : GwyDataField) (invtrans : matrix) (interp : T)
    (fill_value : R) :
  let out := affine source dest invtrans interp fill_value in
  xres out = xres dest /\ yres out = yres dest /\
  xreal out = xreal dest /\ yreal out = yreal dest /\
  xoffset out = xoffset dest /\ yoffset out = yoffset dest /\
  length (data out) = length (data dest) /\
  ((gwy_interpolation_get_support_size interp <= 0)%Z -> out = dest).
Proof.
  intros out. subst out. unfold affine.
  destruct (Z.gtb_spec (gwy_interpolation_get_support_size interp) 0)
    as [Hpos | Hneg].
  - cbn [xres yres xreal yreal xoffset yoffset data].
    repeat split; try lia.
    apply (for_loop_ind (fun _ t => length t = length (data dest))).
    + reflexivity.
    + intros k t _ Ht. rewrite for_loop_set_length. exact Ht.
  - repeat split; reflexivity.
Qed.

(** X9: [affine] never changes the resolution, the physical size, the
    offsets or the number of samples of the destination field, whatever the
    map and the kernel; and when the kernel reports a support size that is
    not positive it returns the destination untouched. *)
Theorem affine_keeps_shape {T : Type} `{GwyInterpolation T}
    (source dest : GwyDataField) (invtrans : matrix) (interp : T)
    (fill_value : R) :
  let out := affine source dest invtrans interp fill_value in
  xres out = xres dest /\ yres out = yres dest /\
  xreal out = xreal dest /\ yreal out = yreal dest /\
  xoffset out = xoffset dest /\ yoffset out = yoffset dest /\
  length (data out) = length (data dest) /\
  ((gwy_interpolation_get_support_size interp <= 0)%Z -> out = dest).
Proof. apply affine_shape. Qed.



(** *** The gathered neighbourhood *)

(** X10: for a positive support size, the two loops over the offsets
    [sf .. st] write all [suplen*suplen] entries of the array [coeff] (which
    the code allocates uninitialised): the entry at
    [(i - sf)*suplen + j - sf], an index inside the array, holds the sample
    read for the offsets [(i, j)]. *)
Theorem affine_gather_complete (xr yr suplen : Z) (cdata : list R)
    (oldi oldj i j : Z) :
  (0 < suplen)%Z ->
  (support_from suplen <= i <= support_to suplen)%Z ->
  (support_from suplen <= j <= support_to suplen)%Z ->
  let coeff := affine_gather xr yr suplen cdata oldi oldj in
  let k := ((i - support_from suplen) * suplen + j - support_from suplen)%Z in
  length coeff = Z.to_nat (suplen * suplen) /\
  (0 <= k < suplen * suplen)%Z /\
  array_get coeff k
  = array_get cdata
      (wrap_index yr (support_to suplen) oldi i * xr
       + wrap_index xr (support_to suplen) oldj j).
Proof.
  intros Hs Hi Hj coeff k. subst coeff k. unfold affine_gather.
  pose proof (support_span suplen Hs) as Hspan.
  destruct (gather_written_all (support_from suplen) (support_to suplen)
              suplen
              (fun i j => array_get cdata
                            (wrap_index yr (support_to suplen) oldi i * xr
                             + wrap_index xr (support_to suplen) oldj j))
              (repeat 0 (Z.to_nat (suplen * suplen))) Hs Hspan)
    as [Hlen Hall].
  { apply repeat_length. }
  refine (conj Hlen (conj _ _)).
  - nia.
  - apply Hall; try assumption. lia.
Qed.

Lemma affine_gather_complete_witness :
  let coeff := affine_gather 2 2 2 (data image_2x2) 1 1 in
  let k := ((1 - support_from 2) * 2 + 0 - support_from 2)%Z in
  length coeff = Z.to_nat (2 * 2) /\
  (0 <= k < 2 * 2)%Z /\
  array_get coeff k
  = array_get (data image_2x2)
      (wrap_index 2 (support_to 2) 1 1 * 2 + wrap_index 2 (support_to 2) 1 0).
Proof.
  apply (affine_gather_complete 2 2 2 (data image_2x2) 1 1 1 0);
    vm_compute; try reflexivity; split; discriminate.
Defined.

Lemma wrap_index_rem (res st k : Z) :
  (1 <= res)%Z -> (0 <= k + 2 * st * res)%Z ->
  Z.rem (k + 2 * st * res) (2 * res) = (k mod (2 * res))%Z.
Proof.
  intros Hres Hk. rewrite Z.rem_mod_nonneg by lia.
  replace (k + 2 * st * res)%Z with (k + st * (2 * res))%Z by ring.
  apply Z_mod_plus_full.
Qed.

(** X11: the index fold of the resampler is the mirror extension of the
    grid: for a resolution [R >= 1] (and a non-negative dividend, as the
    code always has), an index [k] in [0, R) is kept, an index in [-R, 0) is
    reflected to [-1 - k], an index in [R, 2R) is reflected to [2R - 1 - k],
    and shifting the index by [2R] changes nothing. *)
Theorem wrap_index_mirror (res st old off : Z) :
  (1 <= res)%Z -> (0 <= old + off + 2 * st * res)%Z ->
  let k := (old + off)%Z in
  ((0 <= k < res)%Z -> wrap_index res st old off = k) /\
  ((- res <= k < 0)%Z -> wrap_index res st old off = (- 1 - k)%Z) /\
  ((res <= k < 2 * res)%Z -> wrap_index res st old off = (2 * res - 1 - k)%Z) /\
  wrap_index res st (old + 2 * res) off = wrap_index res st old off.
Proof.
  intros Hres Hk k. subst k. unfold wrap_index.
  rewrite (wrap_index_rem res st (old + off)) by lia.
  replace (old + 2 * res + off + 2 * st * res)%Z
    with (old + off + 2 * (st + 1) * res)%Z by ring.
  rewrite (wrap_index_rem res (st + 1) (old + off)) by lia.
  refine (conj _ (conj _ (conj _ eq_refl))).
  - intros H. rewrite Z.mod_small by lia.
    destruct (Z.geb_spec (old + off) res); lia.
  - intros H.
    replace ((old + off) mod (2 * res))%Z with (old + off + 2 * res)%Z.
    + destruct (Z.geb_spec (old + off + 2 * res) res); lia.
    + apply Z.mod_unique with (q := (-1)%Z); lia.
  - intros H. rewrite Z.mod_small by lia.
    destruct (Z.geb_spec (old + off) res); lia.
Qed.

Lemma wrap_index_mirror_witness :
  let k := (0 + -1)%Z in
  ((0 <= k < 4)%Z -> wrap_index 4 1 0 (-1) = k) /\
  ((- 4 <= k < 0)%Z -> wrap_index 4 1 0 (-1) = (- 1 - k)%Z) /\
  ((4 <= k < 2 * 4)%Z -> wrap_index 4 1 0 (-1) = (2 * 4 - 1 - k)%Z) /\
  wrap_index 4 1 (0 + 2 * 4) (-1) = wrap_index 4 1 0 (-1).
Proof. apply (wrap_index_mirror 4 1 0 (-1)); lia. Defined.

Lemma floorZ_IZR (n : Z) : floorZ (IZR n) = n.
Proof. apply floorZ_unique. lra. Qed.

(** X12: for an inverse map that is a translation by whole pixels
    [(tx, ty)], the half-pixel correction vanishes: the destination pixel
    [(newi, newj)] is read at the source pixel [(newi + tx, newj + ty)] with
    zero fractional offsets, and it is interpolated, not filled, whenever
    that pixel has [0 <= newi + tx <= xres] and [0 <= newj + ty <= yres]. *)
Theorem affine_whole_pixel_shift {T : Type} `{GwyInterpolation T}
    (xr yr suplen : Z) (cdata : list R) (interp : T) (fill_value : R)
    (tx ty newi newj : Z) :
  (0 <= newi + tx <= xr)%Z -> (0 <= newj + ty <= yr)%Z ->
  let m := Matrix 1 0 0 1 (IZR tx) (IZR ty) in
  affine_coord m newi newj = (IZR (newi + tx), IZR (newj + ty)) /\
  affine_pixel xr yr suplen cdata m interp fill_value newi newj
  = (false,
     gwy_interpolation_interpolate_2d 0 0 suplen
       (affine_gather xr yr suplen cdata (newj + ty) (newi + tx)) interp).
Proof.
  intros Hi Hj m. subst m.
  assert (Hc : affine_coord (Matrix 1 0 0 1 (IZR tx) (IZR ty)) newi newj
               = (IZR (newi + tx), IZR (newj + ty))).
  { unfold affine_coord, affine_shift. cbn [e0 e1 e2 e3 e4 e5].
    rewrite !plus_IZR. f_equal; lra. }
  split; [exact Hc |].
  unfold affine_pixel. rewrite Hc.
  assert (Hin : affine_outside xr yr (IZR (newi + tx)) (IZR (newj + ty))
                = false).
  { unfold affine_outside, Rgtb.
    destruct Hi as [Hi1 Hi2], Hj as [Hj1 Hj2].
    apply IZR_le in Hi1, Hi2, Hj1, Hj2.
    rewrite !(proj2 (Rltb_false _ _)) by lra. reflexivity. }
  rewrite Hin, !floorZ_IZR.
  replace (IZR (newi + tx) - IZR (newi + tx)) with 0 by ring.
  replace (IZR (newj + ty) - IZR (newj + ty)) with 0 by ring.
  reflexivity.
Qed.

Lemma affine_whole_pixel_shift_witness :
  let m := Matrix 1 0 0 1 (IZR 2) (IZR 0) in
  affine_coord m 0 1 = (IZR (0 + 2), IZR (1 + 0)) /\
  @affine_pixel unit one_sample_kernel 2 2 1 (data image_2x2) m tt 0 0 1
  = (false,
     @gwy_interpolation_interpolate_2d unit one_sample_kernel 0 0 1
       (affine_gather 2 2 1 (data image_2x2) (1 + 0) (0 + 2)) tt).
Proof.
  apply (@affine_whole_pixel_shift unit one_sample_kernel 2 2 1
           (data image_2x2) tt 0 2 0 0 1); lia.
Defined.

(** ** The peak search *)

(** X13: for a radius [r >= 0] and an approximate pixel inside the
    spectrum, the pixel returned by [peak_find] is inside the spectrum and
    within [r] pixels of the approximate pixel along each axis, and every
    pixel read inside the loops is inside the spectrum. *)
Theorem peak_scan_stays_inside (dfield : GwyDataField) (col row r : Z) :
  (0 <= r)%Z ->
  (0 <= col < xres dfield)%Z -> (0 <= row < yres dfield)%Z ->
  let s := peak_scan dfield col row r in
  (0 <= temp_i s < xres dfield)%Z /\ (0 <= temp_j s < yres dfield)%Z /\
  (Z.abs (temp_i s - col) <= r)%Z /\ (Z.abs (temp_j s - row) <= r)%Z /\
  (forall a, In a (examined s) ->
             (0 <= fst a < xres dfield)%Z /\ (0 <= snd a < yres dfield)%Z).
Proof.
  intros Hr Hc Hrow s. subst s.
  destruct (peak_scan_inv dfield col row r) as (_ & _ & Hex & _ & Htie).
  assert (Hres : (temp_i (peak_scan dfield col row r) = col /\
                  temp_j (peak_scan dfield col row r) = row) \/
                 in_window dfield col row r
                   (temp_i (peak_scan dfield col row r),
                    temp_j (peak_scan dfield col row r))).
  { destruct Htie as [(Hi & Hj & _) | (_ & Hp & _)].
    - left. split; assumption.
    - right. apply peak_processed_window, Hp. }
  refine (conj _ (conj _ (conj _ (conj _ _)))).
  - destruct Hres as [[-> _] | [Hw _]]; [lia | simpl in Hw; lia].
  - destruct Hres as [[_ ->] | [_ Hw]]; [lia | simpl in Hw; lia].
  - destruct Hres as [[-> _] | [Hw _]]; [lia | simpl in Hw; lia].
  - destruct Hres as [[_ ->] | [_ Hw]]; [lia | simpl in Hw; lia].
  - intros a Ha. apply Hex, peak_processed_window in Ha.
    destruct Ha as [Hx Hy]. lia.
Qed.

Lemma peak_scan_stays_inside_witness :
  let s := peak_scan spectrum_3x3 1 1 1 in
  (0 <= temp_i s < xres spectrum_3x3)%Z /\
  (0 <= temp_j s < yres spectrum_3x3)%Z /\
  (Z.abs (temp_i s - 1) <= 1)%Z /\ (Z.abs (temp_j s - 1) <= 1)%Z /\
  (forall a, In a (examined s) ->
             (0 <= fst a < xres spectrum_3x3)%Z /\
             (0 <= snd a < yres spectrum_3x3)%Z).
Proof. apply peak_scan_stays_inside; simpl; lia. Defined.

(** X14: with a radius that is not positive the loops of [peak_find] do not
    run: the approximate pixel and its value are returned, no pixel is read
    inside the loops, and the selection is not rewritten. *)
Theorem peak_find_empty_window
    (rtoj rtoi jtor itor : GwyDataField -> R -> R)
    (dfield : GwyDataField) (point : R * R) (rpx : Z) :
  (rpx <= 0)%Z ->
  let col := gint_of_gdouble (rtoj dfield (fst point)) in
  let row := gint_of_gdouble (rtoi dfield (snd point)) in
  peak_scan dfield col row rpx
  = Peak col row (gwy_data_field_get_val dfield col row) [] /\
  p_z (peak_find rtoj rtoi jtor itor dfield point rpx)
  = gwy_data_field_get_val dfield col row /\
  moved (peak_find rtoj rtoi jtor itor dfield point rpx) = None.
Proof.
  intros Hr col row.
  assert (Hs : peak_scan dfield col row rpx
               = Peak col row (gwy_data_field_get_val dfield col row) []).
  { unfold peak_scan. apply for_loop_nil.
    unfold peak_low, peak_high.
    destruct (Z.ltb_spec (col - rpx) 0),
      (Z.gtb_spec (col + rpx) (xres dfield)); lia. }
  split; [exact Hs |].
  unfold peak_find. fold col row. rewrite Hs.
  cbn [p_z moved temp_i temp_j temp_z]. rewrite !Z.sub_diag.
  split; reflexivity.
Qed.

Lemma peak_find_empty_window_witness :
  let rtoj := fun (_ : GwyDataField) (x : R) => x in
  let col := gint_of_gdouble (rtoj spectrum_3x3 (fst (1, 1))) in
  let row := gint_of_gdouble (rtoj spectrum_3x3 (snd (1, 1))) in
  peak_scan spectrum_3x3 col row 0
  = Peak col row (gwy_data_field_get_val spectrum_3x3 col row) [] /\
  p_z (peak_find rtoj rtoj rtoj rtoj spectrum_3x3 (1, 1) 0)
  = gwy_data_field_get_val spectrum_3x3 col row /\
  moved (peak_find rtoj rtoj rtoj rtoj spectrum_3x3 (1, 1) 0) = None.
Proof.
  apply (peak_find_empty_window (fun _ x => x) (fun _ x => x)
           (fun _ x => x) (fun _ x => x) spectrum_3x3 (1, 1) 0).
  lia.
Defined.



(** ** The angles *)

(** X16: both angles returned by [get_angles] are law-of-cosines angles: the
    first between [p1 - p2] and [p3 - p2], the second between [p4 - p3] and
    [p2 - p3], although the code takes the length of [p2 - p3] from the
    first computation (where it is the length of [p3 - p2]); and giving the
    four peaks in the reverse order swaps the two angles. *)
Theorem get_angles_law_of_cosines (P1 P2 P3 P4 : R * R) :
  get_angles P1 P2 P3 P4
  = (spec_angle (fst P1 - fst P2) (snd P1 - snd P2)
       (fst P3 - fst P2) (snd P3 - snd P2),
     spec_angle (fst P4 - fst P3) (snd P4 - snd P3)
       (fst P2 - fst P3) (snd P2 - snd P3)) /\
  get_angles P4 P3 P2 P1
  = (snd (get_angles P1 P2 P3 P4), fst (get_angles P1 P2 P3 P4)).
Proof.
  destruct P1 as [x1 y1], P2 as [x2 y2], P3 as [x3 y3], P4 as [x4 y4].
  unfold get_angles, spec_angle. cbn [fst snd].
  replace ((x2 - x3) * (x2 - x3) + (y2 - y3) * (y2 - y3))
    with ((x3 - x2) * (x3 - x2) + (y3 - y2) * (y3 - y2)) by ring.
  replace ((x3 - x2) * (x1 - x2) + (y3 - y2) * (y1 - y2))
    with ((x1 - x2) * (x3 - x2) + (y1 - y2) * (y3 - y2)) by ring.
  replace (sqrt ((x1 - x2) * (x1 - x2) + (y1 - y2) * (y1 - y2))
           * sqrt ((x3 - x2) * (x3 - x2) + (y3 - y2) * (y3 - y2)))
    with (sqrt ((x3 - x2) * (x3 - x2) + (y3 - y2) * (y3 - y2))
          * sqrt ((x1 - x2) * (x1 - x2) + (y1 - y2) * (y1 - y2)))
    by ring.
  split; reflexivity.
Qed.

Lemma norm_pos (P Q : R * R) :
  P <> Q ->
  0 < sqrt ((fst P - fst Q) * (fst P - fst Q)
            + (snd P - snd Q) * (snd P - snd Q)).
Proof.
  intros Hne. apply sqrt_lt_R0. destruct P as [x y], Q as [x' y'].
  cbn [fst snd].
  destruct (Req_dec x x') as [-> | Hx].
  - destruct (Req_dec y y') as [-> | Hy]; [congruence |].
    assert (0 < (y - y') * (y - y'))
      by (destruct (Rtotal_order y y') as [|[|]]; nra).
    pose proof (Rle_0_sqr (x' - x')) as Hsq. unfold Rsqr in Hsq. lra.
  - assert (0 < (x - x') * (x - x'))
      by (destruct (Rtotal_order x x') as [|[|]]; nra).
    pose proof (Rle_0_sqr (y - y')) as Hsq. unfold Rsqr in Hsq. lra.
Qed.

(** The Cauchy-Schwarz bound on the quotient passed to [acos], with its
    case of equality: parallel vectors. *)
Lemma cosine_bound (ux uy vx vy : R) :
  0 < sqrt (ux * ux + uy * uy) -> 0 < sqrt (vx * vx + vy * vy) ->
  let c := (ux * vx + uy * vy)
           / (sqrt (ux * ux + uy * uy) * sqrt (vx * vx + vy * vy)) in
  -1 <= c <= 1 /\ ((c = 1 \/ c = -1) <-> ux * vy - uy * vx = 0).
Proof.
  intros Ha Hb c.
  assert (Ha2 : sqrt (ux * ux + uy * uy) * sqrt (ux * ux + uy * uy)
                = ux * ux + uy * uy) by (apply sqrt_sqrt; nra).
  assert (Hb2 : sqrt (vx * vx + vy * vy) * sqrt (vx * vx + vy * vy)
                = vx * vx + vy * vy) by (apply sqrt_sqrt; nra).
  set (a := sqrt (ux * ux + uy * uy)) in *.
  set (b := sqrt (vx * vx + vy * vy)) in *.
  set (d := ux * vx + uy * vy) in *.
  set (cr := ux * vy - uy * vx).
  assert (Hp : 0 < a * b) by nra.
  assert (Hid : (a * b) * (a * b) = d * d + cr * cr).
  { replace ((a * b) * (a * b)) with ((a * a) * (b * b)) by ring.
    rewrite Ha2, Hb2. subst d cr. ring. }
  assert (Hc : c * (a * b) = d) by (subst c; field; lra).
  assert (Hcr : 0 <= cr * cr) by nra.
  assert (Hcc : (c * c - 1) * ((a * b) * (a * b)) = - (cr * cr)).
  { replace (c * c * 1) with (c * c) by ring.
    replace ((c * c - 1) * ((a * b) * (a * b)))
      with ((c * (a * b)) * (c * (a * b)) - (a * b) * (a * b)) by ring.
    rewrite Hc, Hid. ring. }
  assert (Hpp : 0 < (a * b) * (a * b)) by nra.
  assert (Hle : c * c <= 1) by nra.
  split; [split; nra |].
  split.
  - intros Hone. assert (Hz : cr * cr = 0) by (destruct Hone as [-> | ->]; nra).
    destruct (Rmult_integral _ _ Hz); assumption.
  - intros Hz. fold cr in Hz. rewrite Hz in Hcc.
    assert (Hsq : (c - 1) * (c + 1) = 0) by nra.
    destruct (Rmult_integral _ _ Hsq); [left | right]; lra.
Qed.

(** X17: the quotient that [get_angles] passes to [acos] is, in exact
    arithmetic, inside the domain of [acos]: for four peaks of which
    consecutive ones differ, each of the two quotients lies between -1 and
    1, and it is 1 or -1, on the edge of that domain, exactly when the three
    peaks of the angle are on one line. *)
Theorem get_angles_cosine_range (P1 P2 P3 P4 : R * R) :
  P1 <> P2 -> P2 <> P3 -> P3 <> P4 ->
  let dot A B C := (fst A - fst B) * (fst C - fst B)
                   + (snd A - snd B) * (snd C - snd B) in
  let cross A B C := (fst A - fst B) * (snd C - snd B)
                     - (snd A - snd B) * (fst C - fst B) in
  let len A B := sqrt ((fst A - fst B) * (fst A - fst B)
                       + (snd A - snd B) * (snd A - snd B)) in
  let c1 := dot P1 P2 P3 / (len P1 P2 * len P3 P2) in
  let c2 := dot P4 P3 P2 / (len P4 P3 * len P3 P2) in
  get_angles P1 P2 P3 P4 = (acos c1 * 180 / PI, acos c2 * 180 / PI) /\
  -1 <= c1 <= 1 /\ -1 <= c2 <= 1 /\
  ((c1 = 1 \/ c1 = -1) <-> cross P1 P2 P3 = 0) /\
  ((c2 = 1 \/ c2 = -1) <-> cross P4 P3 P2 = 0).
Proof.
  intros H12 H23 H34 dot cross len c1 c2.
  pose proof (norm_pos P1 P2 H12) as N12.
  pose proof (norm_pos P3 P2 (not_eq_sym H23)) as N32.
  pose proof (norm_pos P4 P3 (not_eq_sym H34)) as N43.
  pose proof (norm_pos P2 P3 H23) as N23.
  destruct (cosine_bound _ _ _ _ N12 N32) as [B1 E1].
  destruct (cosine_bound _ _ _ _ N43 N23) as [B2 E2].
  replace (sqrt ((fst P2 - fst P3) * (fst P2 - fst P3)
                 + (snd P2 - snd P3) * (snd P2 - snd P3)))
    with (sqrt ((fst P3 - fst P2) * (fst P3 - fst P2)
                + (snd P3 - snd P2) * (snd P3 - snd P2)))
    in B2, E2 by (f_equal; ring).
  subst c1 c2 dot cross len. cbv beta.
  refine (conj _ (conj B1 (conj B2 (conj E1 E2)))).
  destruct P1 as [x1 y1], P2 as [x2 y2], P3 as [x3 y3], P4 as [x4 y4].
  unfold get_angles. cbn [fst snd]. reflexivity.
Qed.

Lemma get_angles_cosine_range_witness :
  let P1 := (0, 2) in
  let P2 := (0, 0) in
  let P3 := (1, 1) in
  let P4 := (3, 0) in
  let dot A B C := (fst A - fst B) * (fst C - fst B)
                   + (snd A - snd B) * (snd C - snd B) in
  let cross A B C := (fst A - fst B) * (snd C - snd B)
                     - (snd A - snd B) * (fst C - fst B) in
  let len A B := sqrt ((fst A - fst B) * (fst A - fst B)
                       + (snd A - snd B) * (snd A - snd B)) in
  let c1 := dot P1 P2 P3 / (len P1 P2 * len P3 P2) in
  let c2 := dot P4 P3 P2 / (len P4 P3 * len P3 P2) in
  get_angles P1 P2 P3 P4 = (acos c1 * 180 / PI, acos c2 * 180 / PI) /\
  -1 <= c1 <= 1 /\ -1 <= c2 <= 1 /\
  ((c1 = 1 \/ c1 = -1) <-> cross P1 P2 P3 = 0) /\
  ((c2 = 1 \/ c2 = -1) <-> cross P4 P3 P2 = 0).
Proof.
  apply (get_angles_cosine_range (0, 2) (0, 0) (1, 1) (3, 0));
    intros E; injection E; intros; lra.
Defined.

(** X18: whenever the two vectors at a vertex are perpendicular (their dot
    product is 0) and not null, [get_angles] returns exactly 90 degrees for
    that vertex. *)
Theorem get_angles_perpendicular (P1 P2 P3 P4 : R * R) :
  P1 <> P2 -> P2 <> P3 -> P3 <> P4 ->
  ((fst P1 - fst P2) * (fst P3 - fst P2)
   + (snd P1 - snd P2) * (snd P3 - snd P2) = 0 ->
   fst (get_angles P1 P2 P3 P4) = 90) /\
  ((fst P4 - fst P3) * (fst P2 - fst P3)
   + (snd P4 - snd P3) * (snd P2 - snd P3) = 0 ->
   snd (get_angles P1 P2 P3 P4) = 90).
Proof.
  intros _ _ _.
  destruct P1 as [x1 y1], P2 as [x2 y2], P3 as [x3 y3], P4 as [x4 y4].
  unfold get_angles. cbn [fst snd].
  split; intros ->; unfold Rdiv at 2; rewrite Rmult_0_l;
    apply right_angle_degrees.
Qed.

Lemma get_angles_perpendicular_witness :
  ((fst (1, 3) - fst (1, 1)) * (fst (4, 1) - fst (1, 1))
   + (snd (1, 3) - snd (1, 1)) * (snd (4, 1) - snd (1, 1)) = 0 ->
   fst (get_angles (1, 3) (1, 1) (4, 1) (4, 5)) = 90) /\
  ((fst (4, 5) - fst (4, 1)) * (fst (1, 1) - fst (4, 1))
   + (snd (4, 5) - snd (4, 1)) * (snd (1, 1) - snd (4, 1)) = 0 ->
   snd (get_angles (1, 3) (1, 1) (4, 1) (4, 5)) = 90).
Proof.
  apply (get_angles_perpendicular (1, 3) (1, 1) (4, 1) (4, 5));
    intros E; injection E; intros; lra.
Defined.

Lemma get_angles_spec_angle (P1 P2 P3 P4 : R * R) :
  get_angles P1 P2 P3 P4
  = (spec_angle (fst P1 - fst P2) (snd P1 - snd P2)
       (fst P3 - fst P2) (snd P3 - snd P2),
     spec_angle (fst P4 - fst P3) (snd P4 - snd P3)
       (fst P2 - fst P3) (snd P2 - snd P3)).
Proof.
  destruct P1 as [x1 y1], P2 as [x2 y2], P3 as [x3 y3], P4 as [x4 y4].
  unfold get_angles, spec_angle. cbn [fst snd].
  replace ((x2 - x3) * (x2 - x3) + (y2 - y3) * (y2 - y3))
    with ((x3 - x2) * (x3 - x2) + (y3 - y2) * (y3 - y2)) by ring.
  reflexivity.
Qed.

Lemma sqrt_scale (k u v : R) :
  0 <= k -> sqrt (k * u * (k * u) + k * v * (k * v)) = k * sqrt (u * u + v * v).
Proof.
  intros Hk.
  replace (k * u * (k * u) + k * v * (k * v)) with (k * k * (u * u + v * v))
    by ring.
  rewrite sqrt_mult by nra. rewrite sqrt_square by exact Hk. reflexivity.
Qed.

Lemma spec_angle_scale (k ux uy vx vy : R) :
  0 < k ->
  0 < sqrt (ux * ux + uy * uy) -> 0 < sqrt (vx * vx + vy * vy) ->
  spec_angle (k * ux) (k * uy) (k * vx) (k * vy) = spec_angle ux uy vx vy.
Proof.
  intros Hk Hu Hv. unfold spec_angle.
  rewrite !sqrt_scale by lra.
  do 3 f_equal. field. lra.
Qed.

(** X19: the angles do not depend on the unit of length or on the origin of
    the coordinates: for four peaks of which consecutive ones differ,
    replacing every peak [p] by [k*p + (tx, ty)] with [k > 0] leaves both
    angles unchanged. *)
Theorem get_angles_rescale (k tx ty : R) (P1 P2 P3 P4 : R * R) :
  0 < k ->
  P1 <> P2 -> P2 <> P3 -> P3 <> P4 ->
  get_angles (rescale k tx ty P1) (rescale k tx ty P2)
    (rescale k tx ty P3) (rescale k tx ty P4)
  = get_angles P1 P2 P3 P4.
Proof.
  intros Hk H12 H23 H34. rewrite !get_angles_spec_angle.
  unfold rescale. cbn [fst snd].
  pose proof (norm_pos P1 P2 H12) as N12.
  pose proof (norm_pos P3 P2 (not_eq_sym H23)) as N32.
  pose proof (norm_pos P4 P3 (not_eq_sym H34)) as N43.
  pose proof (norm_pos P2 P3 H23) as N23.
  f_equal.
  - rewrite <- (spec_angle_scale k _ _ _ _ Hk N12 N32). f_equal; ring.
  - rewrite <- (spec_angle_scale k _ _ _ _ Hk N43 N23). f_equal; ring.
Qed.

Lemma get_angles_rescale_witness :
  get_angles (rescale 2 5 (-1) (0, 2)) (rescale 2 5 (-1) (0, 0))
    (rescale 2 5 (-1) (1, 1)) (rescale 2 5 (-1) (3, 0))
  = get_angles (0, 2) (0, 0) (1, 1) (3, 0).
Proof.
  apply get_angles_rescale; try lra; intros E; injection E; intros; lra.
Defined.

(** ** The spectrum *)

Lemma hypot_bounds (x y : R) :
  0 <= hypot x y /\ Rabs x <= hypot x y /\ Rabs y <= hypot x y.
Proof.
  unfold hypot.
  pose proof (Rle_0_sqr x) as Hx. pose proof (Rle_0_sqr y) as Hy.
  unfold Rsqr in Hx, Hy.
  refine (conj (sqrt_pos _) (conj _ _)).
  - rewrite <- (sqrt_Rsqr_abs x). unfold Rsqr. apply sqrt_le_1_alt. lra.
  - rewrite <- (sqrt_Rsqr_abs y). unfold Rsqr. apply sqrt_le_1_alt. lra.
Qed.

(** X20: for fields that hold at least [xres*yres] samples,
    [set_dfield_modulus] writes into the first [xres*yres] samples of
    the target the modulus [sqrt(re^2 + im^2)] of the samples of the two
    parts, a value that is never negative and never below [|re|] or [|im|];
    it leaves the number of samples and every later sample of the target as
    they were. *)
Theorem set_dfield_modulus_samples (re im target : GwyDataField) :
  (0 <= xres re * yres re <= Z.of_nat (length (data target)))%Z ->
  (xres re * yres re <= Z.of_nat (length (data re)))%Z ->
  (xres re * yres re <= Z.of_nat (length (data im)))%Z ->
  let out := set_dfield_modulus re im target in
  length (data out) = length (data target) /\
  (forall k, (0 <= k < xres re * yres re)%Z ->
     array_get (data out) k
     = sqrt (array_get (data re) k * array_get (data re) k
             + array_get (data im) k * array_get (data im) k) /\
     0 <= array_get (data out) k /\
     Rabs (array_get (data re) k) <= array_get (data out) k /\
     Rabs (array_get (data im) k) <= array_get (data out) k) /\
  (forall k, (xres re * yres re <= k)%Z ->
     array_get (data out) k = array_get (data target) k).
Proof.
  intros Hn _ _ out. subst out. unfold set_dfield_modulus. cbn [data].
  set (n := (xres re * yres re)%Z) in *.
  pose (val := fun k => hypot (array_get (data re) k) (array_get (data im) k)).
  change (for_loop 0 n
            (fun k d => array_set d k (hypot (array_get (data re) k)
                                             (array_get (data im) k)))
            (data target))
    with (for_loop 0 n (fun k d => array_set d k (val k)) (data target)).
  assert (Hinv :
    length (for_loop 0 n (fun k d => array_set d k (val k)) (data target))
    = length (data target) /\
    (forall k, (0 <= k < Z.max 0 n)%Z ->
       array_get (for_loop 0 n (fun k d => array_set d k (val k))
                    (data target)) k = val k) /\
    (forall k, (Z.max 0 n <= k)%Z ->
       array_get (for_loop 0 n (fun k d => array_set d k (val k))
                    (data target)) k = array_get (data target) k)).
  { apply (for_loop_ind
             (fun i d => length d = length (data target) /\
                (forall k, (0 <= k < i)%Z -> array_get d k = val k) /\
                (forall k, (i <= k)%Z ->
                           array_get d k = array_get (data target) k))).
    - refine (conj eq_refl (conj _ _)); intros k Hk; [lia | reflexivity].
    - intros i d Hi (Hlen & Hlow & Hhigh).
      refine (conj _ (conj _ _)).
      + rewrite array_set_length. exact Hlen.
      + intros k Hk. destruct (Z.eq_dec i k) as [-> | Hne].
        * apply array_get_set_same. rewrite Hlen. lia.
        * rewrite array_get_set_other by exact Hne. apply Hlow. lia.
      + intros k Hk. rewrite array_get_set_other by lia. apply Hhigh. lia. }
  destruct Hinv as (Hlen & Hlow & Hhigh).
  rewrite Z.max_r in Hlow, Hhigh by lia.
  refine (conj Hlen (conj _ Hhigh)).
  intros k Hk. rewrite (Hlow k Hk). unfold val.
  destruct (hypot_bounds (array_get (data re) k) (array_get (data im) k))
    as (H0 & H1 & H2).
  refine (conj eq_refl (conj H0 (conj H1 H2))).
Qed.

Lemma set_dfield_modulus_samples_witness :
  let out := set_dfield_modulus image_2x2 image_2x2 image_2x2 in
  length (data out) = length (data image_2x2) /\
  (forall k, (0 <= k < xres image_2x2 * yres image_2x2)%Z ->
     array_get (data out) k
     = sqrt (array_get (data image_2x2) k * array_get (data image_2x2) k
             + array_get (data image_2x2) k * array_get (data image_2x2) k) /\
     0 <= array_get (data out) k /\
     Rabs (array_get (data image_2x2) k) <= array_get (data out) k /\
     Rabs (array_get (data image_2x2) k) <= array_get (data out) k) /\
  (forall k, (xres image_2x2 * yres image_2x2 <= k)%Z ->
     array_get (data out) k = array_get (data image_2x2) k).
Proof. apply set_dfield_modulus_samples; simpl; lia. Defined.

(** X21: after [fft_postprocess] the floor of the spectrum is zero: when the
    humanized field has at least one sample, no sample of the result is
    negative, the value 0 occurs among them, and their number is
    unchanged. *)
Theorem fft_postprocess_floor_zero
    (humanize : GwyDataField -> GwyDataField)
    (jtor itor : GwyDataField -> R -> R) (dfield : GwyDataField) :
  data (humanize dfield) <> [] ->
  let out := fft_postprocess humanize jtor itor dfield in
  (forall v, In v (data out) -> 0 <= v) /\
  In 0 (data out) /\
  length (data out) = length (data (humanize dfield)).
Proof.
  intros Hne out. subst out. unfold fft_postprocess.
  set (f := gwy_data_field_set_yoffset _ _).
  assert (Hdata : data f = data (humanize dfield)) by reflexivity.
  assert (Hnef : data f <> []) by (rewrite Hdata; exact Hne).
  destruct (gwy_data_field_get_min_max_spec f Hnef) as (Hb & Hmin & _).
  destruct (gwy_data_field_get_min_max f) as [dmin dmax].
  cbn [fst snd] in *. unfold gwy_data_field_add. cbn [data].
  refine (conj _ (conj _ _)).
  - intros v Hv. apply in_map_iff in Hv. destruct Hv as (w & <- & Hw).
    specialize (Hb w Hw). lra.
  - apply in_map_iff. exists dmin. split; [lra | exact Hmin].
  - rewrite length_map, Hdata. reflexivity.
Qed.

Lemma fft_postprocess_floor_zero_witness :
  let out := fft_postprocess (fun f => f) (fun _ r => r) (fun _ r => r)
               image_2x2 in
  (forall v, In v (data out) -> 0 <= v) /\
  In 0 (data out) /\
  length (data out) = length (data image_2x2).
Proof.
  apply (fft_postprocess_floor_zero (fun f => f) (fun _ r => r)
           (fun _ r => r) image_2x2).
  simpl. discriminate.
Defined.

(** X22: [fft_postprocess] gives the spectrum reciprocal physical
    dimensions and centres it: with the conversions of libprocess mapping
    pixel coordinates linearly onto the physical size, a humanized field of
    resolution [W] x [H] and size [w] x [h] becomes a field of the same
    resolution, of size [W/w] x [H/h], whose offsets are minus half of that
    size. *)
Theorem fft_postprocess_centred
    (humanize : GwyDataField -> GwyDataField)
    (jtor itor : GwyDataField -> R -> R) (dfield : GwyDataField) :
  (forall f r, jtor f r = r * xreal f / IZR (xres f)) ->
  (forall f r, itor f r = r * yreal f / IZR (yres f)) ->
  let h := humanize dfield in
  (1 <= xres h)%Z -> (1 <= yres h)%Z -> 0 < xreal h -> 0 < yreal h ->
  let out := fft_postprocess humanize jtor itor dfield in
  xres out = xres h /\ yres out = yres h /\
  xreal out = IZR (xres h) / xreal h /\
  yreal out = IZR (yres h) / yreal h /\
  xoffset out = - (xreal out / 2) /\
  yoffset out = - (yreal out / 2).
Proof.
  intros Hj Hi h HW HH Hw Hh out. subst out. unfold fft_postprocess.
  fold h. rewrite Hj, Hi.
  destruct (gwy_data_field_get_min_max _) as [dmin dmax].
  unfold gwy_data_field_add, gwy_data_field_set_yoffset,
    gwy_data_field_set_xoffset, gwy_data_field_set_yreal,
    gwy_data_field_set_xreal, gwy_data_field_get_xmeasure,
    gwy_data_field_get_ymeasure.
  cbn [xres yres xreal yreal xoffset yoffset data].
  assert (1 <= IZR (xres h)) by (apply IZR_le in HW; exact HW).
  assert (1 <= IZR (yres h)) by (apply IZR_le in HH; exact HH).
  repeat split; field; lra.
Qed.

Lemma fft_postprocess_centred_witness :
  let jtor := fun (f : GwyDataField) (r : R) => r * xreal f / IZR (xres f) in
  let itor := fun (f : GwyDataField) (r : R) => r * yreal f / IZR (yres f) in
  let out := fft_postprocess (fun f => f) jtor itor image_2x2 in
  xres out = xres image_2x2 /\ yres out = yres image_2x2 /\
  xreal out = IZR (xres image_2x2) / xreal image_2x2 /\
  yreal out = IZR (yres image_2x2) / yreal image_2x2 /\
  xoffset out = - (xreal out / 2) /\
  yoffset out = - (yreal out / 2).
Proof.
  apply (fft_postprocess_centred (fun f => f)
           (fun f r => r * xreal f / IZR (xres f))
           (fun f r => r * yreal f / IZR (yres f)) image_2x2);
    simpl; try reflexivity; try lia; lra.
Defined.

(** ** Thresholds, settings and the preview *)

Lemma G_MIN_Rmin (a b : R) : G_MIN a b = Rmin a b.
Proof. unfold G_MIN, Rmin. destruct (Rlt_dec a b), (Rle_dec a b); lra. Qed.

Lemma G_MAX_Rmax (a b : R) : G_MAX a b = Rmax a b.
Proof. unfold G_MAX, Rmax. destruct (Rlt_dec b a), (Rle_dec a b); lra. Qed.

(** X23: [threshold_do] clamps every sample into the interval between the
    smaller and the larger of the two thresholds, whichever of [lower] and
    [upper] is the smaller: exchanging the two thresholds gives the same
    field, and applying it twice changes nothing more. *)
Theorem threshold_do_clamps (args : ThresholdArgs) (dfield : GwyDataField) :
  let lo := Rmin (arg_lower args) (arg_upper args) in
  let hi := Rmax (arg_lower args) (arg_upper args) in
  (forall v, In v (data (threshold_do args dfield)) -> lo <= v <= hi) /\
  length (data (threshold_do args dfield)) = length (data dfield) /\
  threshold_do (Args (arg_upper args) (arg_lower args) (image_mode args)
                  (zoom_mode args)) dfield
  = threshold_do args dfield /\
  threshold_do args (threshold_do args dfield) = threshold_do args dfield.
Proof.
  intros lo hi. unfold threshold_do. cbn [arg_lower arg_upper].
  rewrite !G_MIN_Rmin, !G_MAX_Rmax.
  rewrite (Rmin_comm (arg_upper args)), (Rmax_comm (arg_upper args)).
  fold lo hi.
  assert (Hlh : lo <= hi).
  { subst lo hi. pose proof (Rmin_l (arg_lower args) (arg_upper args)).
    pose proof (Rmax_l (arg_lower args) (arg_upper args)). lra. }
  unfold gwy_data_field_clamp.
  destruct (Rlt_dec hi lo) as [Hbad | _]; [lra |].
  cbn [data xres yres xreal yreal xoffset yoffset].
  refine (conj _ (conj _ (conj eq_refl _))).
  - intros v Hv. apply in_map_iff in Hv. destruct Hv as (w & <- & _).
    destruct (Rlt_dec w lo); [lra |]. destruct (Rlt_dec hi w); lra.
  - apply length_map.
  - f_equal. rewrite map_map. apply map_ext. intros w.
    destruct (Rlt_dec w lo) as [H1 | H1].
    + destruct (Rlt_dec lo lo); [lra |]. destruct (Rlt_dec hi lo); lra.
    + destruct (Rlt_dec hi w) as [H2 | H2].
      * destruct (Rlt_dec hi lo); [lra |]. destruct (Rlt_dec hi hi); lra.
      * destruct (Rlt_dec w lo); [lra |]. destruct (Rlt_dec hi w); lra.
Qed.

(** X24: when the displayed range has [min <= max] and the entry holds a
    number, finite or infinite, the threshold stored by
    [threshold_lower_changed] or [threshold_upper_changed] lies in
    [min, max]: it is the number read when that number is in the range,
    [min] when it is below and [max] when it is above.  When the entry
    reads as not-a-number, no branch assigns and the former value stays,
    inside the range or not. *)
Theorem threshold_changed_in_range (num : gdouble_ext) (old : R)
    (ranges : ThresholdRanges) :
  range_min ranges <= range_max ranges ->
  let v := threshold_changed num ranges old in
  match num with
  | Finite x =>
      range_min ranges <= v <= range_max ranges /\
      (range_min ranges <= x <= range_max ranges -> v = x) /\
      (x < range_min ranges -> v = range_min ranges) /\
      (range_max ranges < x -> v = range_max ranges)
  | MinusInf => v = range_min ranges
  | PlusInf => v = range_max ranges
  | NaN => v = old
  end.
Proof.
  intros Hr v. subst v. unfold threshold_changed.
  destruct num as [x | | |];
    cbn [gdouble_ge gdouble_le gdouble_lt gdouble_gt andb];
    try reflexivity.
  unfold Rgtb, Rltb.
  destruct (Rle_dec (range_min ranges) x) as [H1 | H1],
    (Rle_dec x (range_max ranges)) as [H2 | H2]; cbn [andb];
    repeat match goal with
           | |- context [Rlt_dec ?a ?b] => destruct (Rlt_dec a b)
           end;
    repeat split; intros; lra.
Qed.

Lemma threshold_changed_in_range_witness :
  let v := threshold_changed (Finite 7) (Ranges 1 5) 3 in
  1 <= v <= 5 /\
  (1 <= 7 <= 5 -> v = 7) /\ (7 < 1 -> v = 1) /\ (5 < 7 -> v = 5).
Proof.
  apply (threshold_changed_in_range (Finite 7) 3 (Ranges 1 5)). simpl. lra.
Defined.

(** X25: the settings give back what was saved: loading, in the same image
    mode, from the settings written by [threshold_save_args] returns the two
    thresholds and the search radius that were saved, whatever the settings
    held before and whatever values were current. *)
Theorem threshold_save_load (settings : GwyContainer) (args : ThresholdArgs)
    (rpx : Z) (lower0 upper0 : R) (zoom0 : ZoomMode) (rpx0 : Z) :
  threshold_load_args (threshold_save_args settings args rpx)
    (Args lower0 upper0 (image_mode args) zoom0) rpx0
  = (Args (arg_lower args) (arg_upper args) (image_mode args) zoom0, rpx).
Proof.
  destruct args as [l u m z]. cbn [image_mode arg_lower arg_upper].
  destruct m; reflexivity.
Qed.

(** X26: the thresholds are kept per image mode: saving in one mode does not
    change the thresholds that a load in another mode returns (the search
    radius, which has a single key, is the one just saved). *)
Theorem threshold_save_other_mode (settings : GwyContainer)
    (args other : ThresholdArgs) (rpx rpx0 : Z) :
  image_mode other <> image_mode args ->
  let before := threshold_load_args settings other rpx0 in
  let after := threshold_load_args (threshold_save_args settings args rpx)
                 other rpx0 in
  fst after = fst before /\ snd after = rpx.
Proof.
  intros Hne before after. subst before after.
  destruct args as [l u m z], other as [l' u' m' z'].
  cbn [image_mode] in Hne.
  destruct m, m'; try congruence; split; reflexivity.
Qed.

Lemma threshold_save_other_mode_witness :
  let settings := threshold_save_args [] (Args 1 2 IMAGE_FFT ZOOM_1) 3 in
  let before :=
    threshold_load_args settings (Args 0 0 IMAGE_FFT ZOOM_1) 5 in
  let after :=
    threshold_load_args
      (threshold_save_args settings (Args 7 8 IMAGE_DATA ZOOM_1) 4)
      (Args 0 0 IMAGE_FFT ZOOM_1) 5 in
  fst after = fst before /\ snd after = 4%Z.
Proof.
  apply (threshold_save_other_mode
           (threshold_save_args [] (Args 1 2 IMAGE_FFT ZOOM_1) 3)
           (Args 7 8 IMAGE_DATA ZOOM_1) (Args 0 0 IMAGE_FFT ZOOM_1) 4 5).
  simpl. discriminate.
Defined.

(** X27: a load changes nothing that is not stored: when the settings hold
    none of the three keys of the current mode, [threshold_load_args] leaves
    the thresholds and the search radius as they are. *)
Theorem threshold_load_missing (settings : GwyContainer)
    (args : ThresholdArgs) (rpx : Z) :
  gwy_container_get settings (lower_key (image_mode args)) = None ->
  gwy_container_get settings (upper_key (image_mode args)) = None ->
  gwy_container_get settings radius_key = None ->
  threshold_load_args settings args rpx = (args, rpx).
Proof.
  intros Hl Hu Hr. unfold threshold_load_args,
    gwy_container_gis_double_by_name, gwy_container_gis_int32_by_name.
  rewrite Hl, Hu, Hr. destruct args; reflexivity.
Qed.

Lemma threshold_load_missing_witness :
  threshold_load_args [] (Args 7 8 IMAGE_DATA ZOOM_2) 4
  = (Args 7 8 IMAGE_DATA ZOOM_2, 4%Z).
Proof.
  apply (threshold_load_missing [] (Args 7 8 IMAGE_DATA ZOOM_2) 4);
    reflexivity.
Defined.

(** X28: [image_mode_changed] loads the thresholds before it updates the
    mode, so it reads the keys of the mode that is being left: right after
    the thresholds of that mode were saved, the new mode starts with exactly
    those thresholds, whatever the settings hold for the new mode; the point
    layer is editable exactly in the mode [IMAGE_FFT_CORRECTED]. *)
Theorem image_mode_changed_keeps_thresholds (settings : GwyContainer)
    (args : ThresholdArgs) (rpx : Z) (current : ImageMode) :
  image_mode_changed (threshold_save_args settings args rpx) args rpx current
  = (Args (arg_lower args) (arg_upper args) current (zoom_mode args), rpx,
     match current with IMAGE_FFT_CORRECTED => true | _ => false end).
Proof.
  destruct args as [l u m z]. cbn [arg_lower arg_upper zoom_mode].
  destruct m; reflexivity.
Qed.

Lemma Z_lor_1 (x : Z) :
  (0 <= x)%Z ->
  Z.odd (Z.lor x 1) = true /\ (x <= Z.lor x 1 <= x + 1)%Z /\
  (Z.lor x 1 <= 2 * (x / 2) + 1)%Z.
Proof.
  intros Hx. destruct x as [| p | p]; [| | lia].
  - repeat split; simpl; lia.
  - destruct p as [q | q |]; cbn [Z.lor Pos.lor].
    + pose proof (Z.div_mod (Z.pos q~1) 2 ltac:(lia)) as D.
      pose proof (Z.mod_pos_bound (Z.pos q~1) 2 ltac:(lia)) as M.
      refine (conj eq_refl (conj _ _)); lia.
    + assert (E : (Z.pos q~0 / 2 = Z.pos q)%Z).
      { rewrite Pos2Z.inj_xO, Z.mul_comm. apply Z.div_mul. lia. }
      rewrite E. refine (conj eq_refl (conj _ _)); lia.
    + refine (conj eq_refl (conj _ _)); simpl; lia.
Qed.

(** X29: the area that [preview] extracts for the zoom [ZOOM_2] always lies
    inside the displayed field: for a resolution of at least 1 x 1 its width
    and height are odd, at least 1 and at most the resolution, its corner is
    not negative, it does not pass the far edges, and it is centred to
    within one pixel; with [ZOOM_1] nothing is extracted. *)
Theorem preview_zoom_area_inside (Xres Yres : Z) :
  (1 <= Xres < 2 ^ 31)%Z -> (1 <= Yres < 2 ^ 31)%Z ->
  preview_zoom_area Xres Yres ZOOM_1 = None /\
  exists col row width height,
    preview_zoom_area Xres Yres ZOOM_2 = Some (col, row, width, height) /\
    Z.odd width = true /\ Z.odd height = true /\
    (1 <= width <= Xres)%Z /\ (1 <= height <= Yres)%Z /\
    (0 <= col)%Z /\ (col + width <= Xres)%Z /\
    (0 <= row)%Z /\ (row + height <= Yres)%Z /\
    (Xres - width - 1 <= 2 * col <= Xres - width)%Z /\
    (Yres - height - 1 <= 2 * row <= Yres - height)%Z.
Proof.
  intros HX HY. split; [reflexivity |].
  unfold preview_zoom_area. cbn [zoom_value].
  rewrite (Z.quot_div_nonneg Xres 2), (Z.quot_div_nonneg Yres 2) by lia.
  destruct (Z_lor_1 (Xres / 2)) as (Ow & Bw & Cw);
    [apply Z.div_pos; lia |].
  destruct (Z_lor_1 (Yres / 2)) as (Oh & Bh & Ch);
    [apply Z.div_pos; lia |].
  set (w := Z.lor (Xres / 2) 1) in *. set (h := Z.lor (Yres / 2) 1) in *.
  pose proof (Z.div_mod Xres 2 ltac:(lia)) as DX.
  pose proof (Z.mod_pos_bound Xres 2 ltac:(lia)) as MX.
  pose proof (Z.div_mod Yres 2 ltac:(lia)) as DY.
  pose proof (Z.mod_pos_bound Yres 2 ltac:(lia)) as MY.
  assert (Hw : (1 <= w <= Xres)%Z).
  { destruct (Z.eq_dec Xres 1) as [-> | Hn]; [subst w; simpl; lia | lia]. }
  assert (Hh : (1 <= h <= Yres)%Z).
  { destruct (Z.eq_dec Yres 1) as [-> | Hn]; [subst h; simpl; lia | lia]. }
  rewrite (Z.mod_small (Xres - w)), (Z.mod_small (Yres - h)) by lia.
  rewrite (Z.quot_div_nonneg (Xres - w) 2), (Z.quot_div_nonneg (Yres - h) 2)
    by lia.
  exists ((Xres - w) / 2)%Z, ((Yres - h) / 2)%Z, w, h.
  pose proof (Z.div_mod (Xres - w) 2 ltac:(lia)) as DXw.
  pose proof (Z.mod_pos_bound (Xres - w) 2 ltac:(lia)) as MXw.
  pose proof (Z.div_mod (Yres - h) 2 ltac:(lia)) as DYh.
  pose proof (Z.mod_pos_bound (Yres - h) 2 ltac:(lia)) as MYh.
  refine (conj eq_refl (conj Ow (conj Oh (conj Hw (conj Hh _))))).
  repeat split; lia.
Qed.

Lemma preview_zoom_area_inside_witness :
  preview_zoom_area 512 512 ZOOM_1 = None /\
  exists col row width height,
    preview_zoom_area 512 512 ZOOM_2 = Some (col, row, width, height) /\
    Z.odd width = true /\ Z.odd height = true /\
    (1 <= width <= 512)%Z /\ (1 <= height <= 512)%Z /\
    (0 <= col)%Z /\ (col + width <= 512)%Z /\
    (0 <= row)%Z /\ (row + height <= 512)%Z /\
    (512 - width - 1 <= 2 * col <= 512 - width)%Z /\
    (512 - height - 1 <= 2 * row <= 512 - height)%Z.
Proof. apply preview_zoom_area_inside; lia. Defined.
